(** * monty: the Urban Dictionary lookup flow of [monty/cogs/monty_cog.py]

    A shallow embedding of [fetch_urban_dictionary_definition],
    [send_urban_dictionary_definition] and [UbanDictionaryButton], together
    with the parts of the Python runtime they call, and the properties of the
    lookup flow stated over that embedding. *)

From stdpp Require Import gmap list strings.
From Equations Require Import Equations.

Set Warnings "-register-all,-clear-no-such-hyp".

(** ** Python [str] values

    A Python [str] is a sequence of Unicode code points; a code point is kept
    as an [N].  [py] turns a literal of the source into such a sequence. *)

Abbreviation char := N (only parsing).
Abbreviation str := (list N) (only parsing).

Definition py (s : string) : str :=
  (fun a => N.of_nat (Ascii.nat_of_ascii a)) <$> String.list_ascii_of_string s.

Definition LF : char := 10%N.
Definition CR : char := 13%N.
Definition LBRACK : char := 91%N.
Definition RBRACK : char := 93%N.

(** [sep.join(items)] *)
Fixpoint str_join (sep : str) (items : list str) : str :=
  match items with
  | [] => []
  | [x] => x
  | x :: rest => x ++ sep ++ str_join sep rest
  end.

(** [old] is a prefix of [s] *)
Fixpoint startswith (old s : str) : bool :=
  match old, s with
  | [], _ => true
  | _ :: _, [] => false
  | a :: old', b :: s' => (a =? b)%N && startswith old' s'
  end.

(** [s.replace(old, new)] for a non-empty [old]: occurrences are replaced from
    left to right and do not overlap.  [skip] counts the characters of an
    occurrence already replaced that are still to be passed over. *)
Fixpoint replace_from (old new : str) (skip : nat) (s : str) : str :=
  match s with
  | [] => []
  | c :: s' =>
      match skip with
      | S k => replace_from old new k s'
      | O =>
          if startswith old s
          then new ++ replace_from old new (length old - 1) s'
          else c :: replace_from old new 0 s'
      end
  end.

Definition str_replace (old new s : str) : str := replace_from old new 0 s.

(** Line boundaries of [str.splitlines]: LF, VT, FF, CR, FS, GS, RS, NEL,
    LINE SEPARATOR, PARAGRAPH SEPARATOR (CR LF counts once). *)
Definition is_linebreak (c : char) : bool :=
  bool_decide (c ∈ [10; 11; 12; 13; 28; 29; 30; 133; 8232; 8233]%N).

(** [s.splitlines()], [cur] being the line read so far.  A break closes the
    current line even when it is empty; the end of the text closes it only
    when it is not. *)
Fixpoint splitlines_from (cur : str) (s : str) : list str :=
  match s with
  | [] => match cur with [] => [] | _ => [cur] end
  | c :: s' =>
      if is_linebreak c then
        match s' with
        | d :: s'' =>
            if (c =? CR)%N && (d =? LF)%N
            then cur :: splitlines_from [] s''
            else cur :: splitlines_from [] s'
        | [] => [cur]
        end
      else splitlines_from (cur ++ [c]) s'
  end.

Definition splitlines (s : str) : list str := splitlines_from [] s.

(** Code points that [str.strip()] removes ([str.isspace]). *)
Definition isspace (c : char) : bool :=
  ((9 <=? c) && (c <=? 13) || (28 <=? c) && (c <=? 32)
   || (8192 <=? c) && (c <=? 8202)
   || bool_decide (c ∈ [133; 160; 5760; 8232; 8233; 8239; 8287; 12288]))%N.

Fixpoint lstrip (s : str) : str :=
  match s with
  | c :: s' => if isspace c then lstrip s' else s
  | [] => []
  end.

(** [s.strip()] *)
Definition strip (s : str) : str := reverse (lstrip (reverse (lstrip s))).

(** ** The regular expression [linked_terms_pattern]

    The pattern compiled at module level, written here with spaces between
    its parts: \[ ( [^]]* ) \] -- an opening bracket, a greedy run of
    characters other than the closing bracket (group 1), a closing bracket. *)

(** Group 1 and the closing bracket at the head of [s]: the group and the
    text after the match.
    The greedy run stops at the first closing bracket; when the text ends
    first, every shorter run is followed by a character that is not a closing
    bracket, so the match fails. *)
Fixpoint match_group (s : str) : option (str * str) :=
  match s with
  | [] => None
  | c :: s' =>
      if (c =? RBRACK)%N then Some ([], s')
      else match match_group s' with
           | Some (g, rest) => Some (c :: g, rest)
           | None => None
           end
  end.

(** [linked_terms_pattern.match(s)] *)
Definition linked_terms_pattern (s : str) : option (str * str) :=
  match s with
  | c :: s' => if (c =? LBRACK)%N then match_group s' else None
  | [] => None
  end.

Definition inspect {A} (a : A) : {b | a = b} := exist _ a eq_refl.

(** [linked_terms_pattern.findall(s)]: the matches are looked for from left to
    right; after a match the scan resumes behind it, after a failure at the
    next character.  The result lists group 1 of every match. *)
Equations? findall (s : str) : list str by wf (length s) lt :=
  findall [] := [];
  findall (c :: s') with inspect (linked_terms_pattern (c :: s')) => {
    | exist _ (Some (g, rest)) E => g :: findall rest;
    | exist _ None _ => findall s' }.
Proof.
  assert (∀ t g' rest', match_group t = Some (g', rest') → length rest' < length t)
    as Hshorter.
  { clear. intros t. induction t as [|a t IH]; intros g' rest'; simpl; [done|].
    destruct (a =? RBRACK)%N; [intros [= <- <-]; lia|].
    destruct (match_group t) as [[g'' rest'']|]; [|done].
    intros [= <- <-]. specialize (IH _ _ eq_refl). lia. }
  simpl in E. destruct (c =? LBRACK)%N; [|done].
  apply Hshorter in E. simpl. lia.
Qed.

(** ** Values, exceptions and the runtime *)

(** What [json.loads] can return.  A [dict] is kept as its items in
    insertion order, which is the order its text shows them in. *)
Inductive pyval :=
| VNone
| VBool (b : bool)
| VInt (z : Z)
| VFloat (bits : N)
| VStr (s : str)
| VList (l : list pyval)
| VDict (items : list (list N * pyval)).

(** [d[key]] for the items of a [dict]: the keys of a [dict] are distinct,
    and the item with the key, if there is one, gives the value. *)
Fixpoint dict_get (items : list (list N * pyval)) (key : str) : option pyval :=
  match items with
  | [] => None
  | (k, v) :: items' => if decide (k = key) then Some v else dict_get items' key
  end.

#[global] Instance dict_lookup : Lookup (list N) pyval (list (list N * pyval)) :=
  λ key items, dict_get items key.

(** A [dict] with one item. *)
#[global] Instance dict_singleton : SingletonM (list N) pyval (list (list N * pyval)) :=
  λ key v, [(key, v)].

(** A call either returns a value or raises an exception that nothing in the
    flow catches. *)
Inductive outcome (A : Type) :=
| Returned (a : A)
| Raised.
Arguments Returned {A} a.
Arguments Raised {A}.

#[global] Instance outcome_ret : MRet outcome := λ A a, Returned a.
#[global] Instance outcome_bind : MBind outcome := λ A B f m,
  match m with
  | Returned a => f a
  | Raised => Raised
  end.

Definition of_option {A} (o : option A) : outcome A :=
  match o with
  | Some a => Returned a
  | None => Raised
  end.

(** [obj[key]] for a [str] key: only a [dict] answers (KeyError when the key
    is absent, TypeError for every other kind of value). *)
Definition subscript_key (obj : pyval) (key : str) : outcome pyval :=
  match obj with
  | VDict m => of_option (m !! key)
  | _ => Raised
  end.

(** Position [i] of a sequence of length [n], negative positions counting from
    the end. *)
Definition sequence_index (n : nat) (i : Z) : option nat :=
  if decide (0 ≤ i)%Z then
    if decide (i < Z.of_nat n)%Z then Some (Z.to_nat i) else None
  else
    if decide (- Z.of_nat n ≤ i)%Z then Some (Z.to_nat (Z.of_nat n + i)) else None.

(** [obj[i]] for an [int] index: a [list] gives its element and a [str] the
    one-character [str] at that position (IndexError out of range); a [dict]
    read from JSON has only [str] keys (KeyError); nothing else can be
    subscripted (TypeError). *)
Definition subscript_index (obj : pyval) (i : Z) : outcome pyval :=
  match obj with
  | VList l => of_option (k ← sequence_index (length l) i; l !! k)
  | VStr s => of_option (k ← sequence_index (length s) i; c ← s !! k; Some (VStr [c]))
  | _ => Raised
  end.

(** A value used where the code calls a [str] method on it or joins it:
    anything but a [str] raises (AttributeError, TypeError). *)
Definition expect_str (v : pyval) : outcome str :=
  match v with
  | VStr s => Returned s
  | _ => Raised
  end.

Definition ascii_lower (c : char) : char :=
  if ((65 <=? c) && (c <=? 90))%N then (c + 32)%N else c.

Definition is_ascii (s : str) : Prop := Forall (λ c, (c < 128)%N) s.

#[global] Instance is_ascii_dec s : Decision (is_ascii s).
Proof. unfold is_ascii. apply _. Defined.

(** The library functions the flow calls and this file does not define.
    [str.lower] follows the Unicode tables; all that is used of it is what it
    does on ASCII text.  An f-string field formats a [str] as itself.
    [bytes.decode('utf-8')], [json.loads] and [urllib.parse.quote] (which
    encodes its argument first) give [None] where they raise. *)
Class PyRuntime := {
  lower : str → str;
  lower_ascii : ∀ s, is_ascii s → lower s = ascii_lower <$> s;
  format_value : pyval → str;
  format_value_str : ∀ s, format_value (VStr s) = s;
  utf8_decode : list Byte.byte → option str;
  json_loads : str → option pyval;
  quote : str → option (list N);
}.

(** ** The data of the flow *)

(** The dataclass [UrbanDefinition].  Its field annotations are not checked
    when an instance is built, so a field holds whatever the response had. *)
Record UrbanDefinition := {
  word : pyval;
  definition : pyval;
  example : pyval;
  permalink : pyval;
}.

(** [UbanDictionaryButton]: the label given to [discord.ui.Button] and the two
    attributes its callback reads. *)
Record Button := {
  label : str;
  term : str;
  previous_terms : list (list N);
}.

Definition UbanDictionaryButton (term : str) (previous_terms : list str) : Button :=
  {| label := term; term := term; previous_terms := previous_terms |}.

(** What [interaction.response.send_message] is called with: the text, the
    description of the embed, and the items of the view in the order they
    were added.  [discord.ui.View] is kept as that ordered list; the chat
    framework that delivers the message, and the limits it puts on the size
    of one, are outside the flow. *)
Record Message := {
  content : option (list N);
  embed : option (list N);
  view : list Button;
}.

Section flow.
Context `{PyRuntime}.

(** The HTTPS connection to [api.urbandictionary.com]: the bytes read from
    the response to a GET of the given path, unless the request raises. *)
Variable https_get : str → outcome (list Byte.byte).

Definition fetch_urban_dictionary_definition (term : str)
  : outcome (option UrbanDefinition) :=
  encoded_term ← of_option (quote term);
  data_bytes ← https_get (py "/v0/define?term=" ++ encoded_term);
  if decide (length data_bytes = 0) then Returned None
  else
    text ← of_option (utf8_decode data_bytes);
    response ← of_option (json_loads text);
    candidates ← subscript_key response (py "list");
    first_result ← subscript_index candidates 0;
    w ← subscript_key first_result (py "word");
    d ← subscript_key first_result (py "definition");
    e ← subscript_key first_result (py "example");
    p ← subscript_key first_result (py "permalink");
    Returned (Some {| word := w; definition := d; example := e; permalink := p |}).

(** The local function [clean]. *)
Definition clean (text : str) : str :=
  str_join [LF]
    (filter (λ l, 0 < length (strip l))
       (splitlines
          (str_replace [RBRACK] (py "__")
             (str_replace [LBRACK] (py "__")
                (str_replace (py "\r\n") [LF] text))))).

(** The loop over [other_terms]: [view] and [processed_terms] are the two
    objects it updates. *)
Fixpoint add_items (terms_to_get_here : list str) (other_terms : list str)
    (view : list Button) (processed_terms : gset (list N))
  : list Button * gset (list N) :=
  match other_terms with
  | [] => (view, processed_terms)
  | other_term :: rest =>
      let other_term := lower other_term in
      if decide (other_term ∈ processed_terms)
      then add_items terms_to_get_here rest view processed_terms
      else add_items terms_to_get_here rest
             (view ++ [UbanDictionaryButton other_term terms_to_get_here])
             (processed_terms ∪ {[other_term]})
  end.

(** [send_urban_dictionary_definition] from the comment "Build a UI" on.
    The title joins the new trail, which raises unless the word is a
    [str]; [clean] and [findall] raise unless they are given a [str]. *)
Definition render (d : UrbanDefinition) (previous_terms : list str)
  : outcome Message :=
  w ← expect_str (word d);
  let terms_to_get_here := previous_terms ++ [w] in
  body ← expect_str (definition d);
  ex ← expect_str (example d);
  let description :=
    [py "# " ++ str_join (py " > ") terms_to_get_here]
    ++ ((λ l, py "### " ++ l) <$> splitlines (clean body))
    ++ [[LF]]
    ++ ((λ l, py "*" ++ l ++ py "*") <$> splitlines (clean ex))
    ++ [py "[website](" ++ format_value (permalink d) ++ py ")"] in
  let other_terms := findall body ++ findall ex in
  let '(view, _) := add_items terms_to_get_here other_terms [] ∅ in
  Returned {| content := None;
              embed := Some (str_join [LF] description);
              view := view |}.

Definition send_urban_dictionary_definition (term : str)
    (previous_terms : list str) : outcome Message :=
  d ← fetch_urban_dictionary_definition term;
  match d with
  | None =>
      Returned {| content := Some (py "Failed to get a definition");
                  embed := None; view := [] |}
  | Some d => render d previous_terms
  end.

(** [UbanDictionaryButton.callback] *)
Definition callback (b : Button) : outcome Message :=
  send_urban_dictionary_definition (term b) (previous_terms b).

(** The [urban] command. *)
Definition urban (term : str) : outcome Message :=
  send_urban_dictionary_definition term [].

(** The Term Extractor of the specification: the scan of a text followed by
    the loop of [render], started from the set [alreadySeen]. *)
Definition extract (text : str) (alreadySeen : gset (list N)) : list str :=
  label <$> (add_items [] (findall text) [] alreadySeen).1.

End flow.

(** ** The scan as a state machine

    [findall] read one character at a time: the state is the text of the
    group being read, if a bracket is open. *)

Fixpoint scan (st : option (list N)) (s : str) : list str :=
  match s with
  | [] => []
  | c :: s' =>
      match st with
      | None => if (c =? LBRACK)%N then scan (Some []) s' else scan None s'
      | Some g => if (c =? RBRACK)%N then g :: scan None s' else scan (Some (g ++ [c])) s'
      end
  end.

Fixpoint scan_state (st : option (list N)) (s : str) : option str :=
  match s with
  | [] => st
  | c :: s' =>
      match st with
      | None => if (c =? LBRACK)%N then scan_state (Some []) s' else scan_state None s'
      | Some g => if (c =? RBRACK)%N then scan_state None s' else scan_state (Some (g ++ [c])) s'
      end
  end.

(** The text ends inside a bracket that is never closed: there is an opening
    bracket after its last closing bracket. *)
Fixpoint open_pending (pending : bool) (s : str) : bool :=
  match s with
  | [] => pending
  | c :: s' =>
      if (c =? RBRACK)%N then open_pending false s'
      else if (c =? LBRACK)%N then open_pending true s'
      else open_pending pending s'
  end.

Definition unclosed (s : str) : bool := open_pending false s.

(** The terms the loop of [render] keeps, as a function on lists: the first
    occurrence of every term that is not in [seen]. *)
Fixpoint fresh_terms (seen : gset (list N)) (l : list str) : list str :=
  match l with
  | [] => []
  | x :: l' =>
      if decide (x ∈ seen) then fresh_terms seen l'
      else x :: fresh_terms (seen ∪ {[x]}) l'
  end.

(** What [render] sends for a record whose word, definition and example
    are [str] values. *)
Definition description_of `{PyRuntime} (w body ex : str) (link : pyval)
    (trail : list str) : str :=
  str_join [LF]
    ([py "# " ++ str_join (py " > ") (trail ++ [w])]
     ++ ((λ l, py "### " ++ l) <$> splitlines (clean body))
     ++ [[LF]]
     ++ ((λ l, py "*" ++ l ++ py "*") <$> splitlines (clean ex))
     ++ [py "[website](" ++ format_value link ++ py ")"]).

(** ** A runtime for ASCII text

    [lower] changes the ASCII letters only, bytes below 128 decode to
    themselves, and the JSON decoder is a table of responses: it agrees with
    CPython wherever the flow is run on ASCII text and on the responses
    listed in [known]. *)

(** [bytes.decode('utf-8')] on ASCII bytes. *)
Definition ascii_decode (data : list Byte.byte) : option str :=
  let codes := (λ b, Byte.to_N b) <$> data in
  if decide (Forall (λ c, (c < 128)%N) codes) then Some codes else None.

(** A JSON decoder that knows the texts listed in [known]. *)
Fixpoint table_loads (known : list (list N * pyval)) (text : str) : option pyval :=
  match known with
  | [] => None
  | (k, v) :: known' => if decide (k = text) then Some v else table_loads known' text
  end.

Definition hex_digit (n : N) : char :=
  if (n <? 10)%N then (48 + n)%N else (55 + n)%N.

(** [urllib.parse.quote(term, safe='')] on ASCII text: letters, digits and
    [_.-~] stay, every other character becomes a percent escape. *)
Definition quote_char (c : char) : str :=
  if ((65 <=? c) && (c <=? 90) || (97 <=? c) && (c <=? 122)
      || (48 <=? c) && (c <=? 57)
      || bool_decide (c ∈ [95; 46; 45; 126]))%N
  then [c]
  else [37%N; hex_digit (c / 16); hex_digit (c mod 16)].

Definition ascii_quote (s : str) : option str :=
  if decide (is_ascii s) then Some (s ≫= quote_char) else None.

(** An f-string field: a [str] is shown as itself; the values other than
    [str], [None] and the booleans are not formatted anywhere in this file
    and are shown as dots. *)
Definition ascii_format (v : pyval) : str :=
  match v with
  | VStr s => s
  | VNone => py "None"
  | VBool true => py "True"
  | VBool false => py "False"
  | _ => py "..."
  end.

Program Definition ascii_runtime (known : list (list N * pyval)) : PyRuntime := {|
  lower s := ascii_lower <$> s;
  format_value := ascii_format;
  utf8_decode := ascii_decode;
  json_loads := table_loads known;
  quote := ascii_quote;
|}.

(** The bytes of an ASCII text. *)
Definition ascii_encode (s : str) : list Byte.byte :=
  (λ c, default Byte.x00 (Byte.of_N c)) <$> s.

Definition DQUOTE : char := 34%N.

Definition json_string (s : str) : str := [DQUOTE] ++ s ++ [DQUOTE].

(** The text of a response with one candidate, for field values that need no
    escaping, and the value [json.loads] reads from it. *)
Definition response_text (w d e p : str) : str :=
  py "{" ++ json_string (py "list") ++ py ":[{"
  ++ json_string (py "word") ++ py ":" ++ json_string w ++ py ","
  ++ json_string (py "definition") ++ py ":" ++ json_string d ++ py ","
  ++ json_string (py "example") ++ py ":" ++ json_string e ++ py ","
  ++ json_string (py "permalink") ++ py ":" ++ json_string p ++ py "}]}".

Definition response_value (w d e p : str) : pyval :=
  VDict [ (py "list",
           VList [VDict [ (py "word", VStr w); (py "definition", VStr d);
                          (py "example", VStr e); (py "permalink", VStr p) ]]) ].

(** The two responses of the round-trip scenario. *)
Definition foo_record : UrbanDefinition :=
  {| word := VStr (py "foo"); definition := VStr (py "see [bar]");
     example := VStr []; permalink := VStr (py "http://x") |}.

Definition bar_record : UrbanDefinition :=
  {| word := VStr (py "bar"); definition := VStr [];
     example := VStr []; permalink := VStr (py "http://y") |}.

Definition scenario_known : list (list N * pyval) :=
  [ (response_text (py "foo") (py "see [bar]") [] (py "http://x"),
     response_value (py "foo") (py "see [bar]") [] (py "http://x"));
    (response_text (py "bar") [] [] (py "http://y"),
     response_value (py "bar") [] [] (py "http://y")) ].

(** A server that knows "foo" and "bar" and answers anything else with an
    empty body. *)
Definition scenario_get (path : str) : outcome (list Byte.byte) :=
  if decide (path = py "/v0/define?term=foo")
  then Returned (ascii_encode (response_text (py "foo") (py "see [bar]") [] (py "http://x")))
  else if decide (path = py "/v0/define?term=bar")
  then Returned (ascii_encode (response_text (py "bar") [] [] (py "http://y")))
  else Returned [].

Ltac ascii_text := compute_done.

(** A response that is not empty and has no candidate. *)
Definition no_candidate_text : str := py "{" ++ json_string (py "list") ++ py ":[]}".

Definition no_candidate_known : list (list N * pyval) :=
  [ (no_candidate_text, VDict {[ py "list" := VList [] ]}) ].

(** A text holds an empty bracket pair where the scan looks for a match: the
    text before the pair does not end inside a bracket. *)
Definition has_empty_pair (s : str) : Prop :=
  ∃ pre post, s = pre ++ py "[]" ++ post ∧ unclosed pre = false.

(** A text contains the bracketed term [g] where the scan looks for a match:
    the text before its opening bracket does not end inside a bracket. *)
Definition has_term (g s : str) : Prop :=
  ∃ pre post, s = pre ++ [LBRACK] ++ g ++ [RBRACK] ++ post ∧ unclosed pre = false.

(** A decoder that knows the response for "foo" only. *)
Definition foo_known : list (list N * pyval) :=
  [ (response_text (py "foo") (py "see [bar]") [] (py "http://x"),
     response_value (py "foo") (py "see [bar]") [] (py "http://x")) ].

(** A server that answers every request with the response for "foo". *)
Definition foo_get (path : str) : outcome (list Byte.byte) :=
  Returned (ascii_encode (response_text (py "foo") (py "see [bar]") [] (py "http://x"))).

(** ** More of the flow, and the other commands of the cog *)

(** The lines of a text that a reply shows: the line ends normalised, both
    brackets replaced, the blank lines dropped.  [clean] joins them. *)
Definition visible_lines (text : str) : list str :=
  filter (λ l, 0 < length (strip l))
    (splitlines
       (str_replace [RBRACK] (py "__")
          (str_replace [LBRACK] (py "__")
             (str_replace (py "\r\n") [LF] text)))).

(** The term [g] stands between brackets somewhere in [text]. *)
Definition bracketed (g text : str) : Prop :=
  ∃ pre post, text = pre ++ LBRACK :: g ++ RBRACK :: post.

(** Browsing: [navigation path b] when the button [b] is on the reply reached
    by the [urban] command followed by clicks on buttons of the replies, and
    [path] lists the headwords of the definitions shown on the way, the
    oldest first.  The server may answer differently at every step. *)
Inductive navigation `{PyRuntime} : list (list N) → Button → Prop :=
| navigation_urban get term d w msg b :
    fetch_urban_dictionary_definition get term = Returned (Some d) →
    word d = VStr w →
    urban get term = Returned msg →
    b ∈ view msg →
    navigation [w] b
| navigation_click get path b0 d w msg b :
    navigation path b0 →
    fetch_urban_dictionary_definition get (term b0) = Returned (Some d) →
    word d = VStr w →
    callback get b0 = Returned msg →
    b ∈ view msg →
    navigation (path ++ [w]) b.

(** *** The [mock] context menu *)

Definition ascii_isalpha (c : char) : bool :=
  ((65 <=? c) && (c <=? 90) || (97 <=? c) && (c <=? 122))%N.

Definition ascii_upper (c : char) : char :=
  if ((97 <=? c) && (c <=? 122))%N then (c - 32)%N else c.

(** [str.isalpha], [str.upper] and [str.lower] on a one-character [str].
    They follow the Unicode tables (the case of a character may take several
    characters); all that is used of them is what they do on ASCII. *)
Class PyChars := {
  char_isalpha : N → bool;
  char_upper : N → list N;
  char_lower : N → list N;
  char_isalpha_ascii : ∀ c, (c < 128)%N → char_isalpha c = ascii_isalpha c;
  char_upper_ascii : ∀ c, (c < 128)%N → char_upper c = [ascii_upper c];
  char_lower_ascii : ∀ c, (c < 128)%N → char_lower c = [ascii_lower c];
}.

(** The loop of [mock] over the characters of the message: [upper] and
    [mocked] are the two variables it updates. *)
Fixpoint mock_loop `{PyChars} (content : str) (upper : bool) (mocked : list str)
  : list str :=
  match content with
  | [] => mocked
  | c :: rest =>
      if negb (char_isalpha c) then mock_loop rest upper (mocked ++ [[c]])
      else mock_loop rest (negb upper)
             (mocked ++ [if upper then char_upper c else char_lower c])
  end.

(** [mock]: the text sent in reply to a message with the given content. *)
Definition mock `{PyChars} (content : str) : str :=
  str_join [] (mock_loop content false []).

(** The characters of ASCII text with the case [mock] gives them. *)
Fixpoint alternate_case (upper : bool) (s : str) : str :=
  match s with
  | [] => []
  | c :: rest =>
      if ascii_isalpha c
      then (if upper then ascii_upper c else ascii_lower c)
           :: alternate_case (negb upper) rest
      else c :: alternate_case upper rest
  end.

Program Definition ascii_chars : PyChars := {|
  char_isalpha := ascii_isalpha;
  char_upper c := [ascii_upper c];
  char_lower c := [ascii_lower c];
|}.

(** *** The [fish_look] command *)

(** A reply to a command: its text, and whether only the caller sees it. *)
Record Reply := {
  reply_content : list N;
  reply_ephemeral : bool;
}.

(** [s * n]: nothing when [n] is not positive. *)
Definition str_repeat (s : str) (n : Z) : str := mjoin (replicate (Z.to_nat n) s).

Section fish.

(** The length of the longest [str] the interpreter can build; building a
    longer one raises MemoryError. *)
Variable capacity : nat.

Definition allocate (s : str) : outcome str :=
  if decide (length s ≤ capacity) then Returned s else Raised.

Definition fish_look (length_ : Z) (thing_being_looked_at : str) : outcome Reply :=
  neck ← allocate (str_repeat (py "<:fish2:854133921473495040>") length_);
  message ← allocate (py "<:fish1:854133518204665876>" ++ neck
                      ++ py "<:fish3:854133518083162112>"
                      ++ strip thing_being_looked_at);
  if decide (2000 < Z.of_nat (length message))%Z
  then Returned {| reply_content :=
                     py "Woah. Discord can't handle that much fish. Try a smaller number.";
                   reply_ephemeral := true |}
  else Returned {| reply_content := message; reply_ephemeral := false |}.

End fish.

(** *** The age shown by [fake_person] *)

(** A [datetime.date]. *)
Record date := {
  year : Z;
  month : Z;
  day : Z;
}.

(** [(a1, a2) < (b1, b2)] on tuples of integers. *)
Definition pair_ltb (a b : Z * Z) : bool :=
  (a.1 <? b.1)%Z || ((a.1 =? b.1)%Z && (a.2 <? b.2)%Z).

(** The value of [age] in [fake_person], from [today] and [bday]: a
    comparison counts as 1 when it holds and as 0 when it does not. *)
Definition fake_person_age (today bday : date) : Z :=
  year today - year bday
  - (if pair_ltb (month today, day today) (month bday, day bday) then 1 else 0).

(** Dates in calendar order, and the anniversary [n] years after a date. *)
Definition date_le (a b : date) : Prop :=
  (year a < year b ∨ (year a = year b ∧ (month a < month b
     ∨ (month a = month b ∧ day a ≤ day b))))%Z.

Definition anniversary (d : date) (n : Z) : date :=
  {| year := year d + n; month := month d; day := day d |}.

(** *** The [inspect_emoji] command *)

(** The decimal digits: the class of backslash-d in a [str] pattern, the
    value [int] gives each, and the longest text [int] converts
    ([sys.get_int_max_str_digits()], [None] where there is no limit).  All
    that is used of the first two is what they are on ASCII. *)
Class PyDigits := {
  char_isdecimal : N → bool;
  char_decimal : N → Z;
  int_max_str_digits : option nat;
  char_isdecimal_ascii :
    ∀ c, (c < 128)%N → char_isdecimal c = ((48 <=? c) && (c <=? 57))%N;
  char_decimal_ascii :
    ∀ c, (48 ≤ c)%N → (c ≤ 57)%N → char_decimal c = (Z.of_N c - 48)%Z;
}.

(** An emoji the client knows: its name, and the texts shown for
    [created_at] and [url]. *)
Record Emoji := {
  emoji_name : list N;
  emoji_created_at : list N;
  emoji_url : list N;
}.

(** What [inspect_emoji] sends: a text, or an embed with its description and
    its fields (name and value). *)
Inductive EmojiReply :=
| ReplyText (content : str)
| ReplyEmbed (description : str) (fields : list (list N * list N)).

Section emoji.
Context `{PyDigits}.

(** The longest run of decimal digits at the head of [s], and what follows. *)
Fixpoint take_digits (s : str) : list N * list N :=
  match s with
  | c :: s' =>
      if char_isdecimal c
      then let '(ds, rest) := take_digits s' in (c :: ds, rest)
      else ([], s)
  | [] => ([], [])
  end.

(** The end of [emoji_pattern], one or more digits (group 1) and the closing
    angle bracket, at the head of [s].  The run of digits is greedy, and a
    shorter run is followed by a digit, so only the longest can match. *)
Definition digits_then_close (s : str) : option str :=
  match take_digits s with
  | ((_ :: _) as ds, c :: _) => if (c =? 62)%N then Some ds else None
  | _ => None
  end.

(** The part of [emoji_pattern] from the greedy run of any characters but
    the newline on, at the head of [r]: the run is tried longest first, so
    the colon that ends it is the last one that works. *)
Fixpoint emoji_tail (r : str) : option str :=
  match r with
  | [] => None
  | c :: r' =>
      if (c =? LF)%N then None
      else match emoji_tail r' with
           | Some group => Some group
           | None => if (c =? 58)%N then digits_then_close r' else None
           end
  end.

(** [emoji_pattern.match(s)], giving group 1: an opening angle bracket, an
    optional "a", a colon, and the rest as [emoji_tail]. *)
Definition emoji_pattern (s : str) : option str :=
  match s with
  | c :: s1 =>
      if (c =? 60)%N then
        let s2 := match s1 with
                  | a :: s2 => if (a =? 97)%N then s2 else s1
                  | [] => s1
                  end in
        match s2 with
        | c2 :: r => if (c2 =? 58)%N then emoji_tail r else None
        | [] => None
        end
      else None
  | [] => None
  end.

(** [int(group)] for a text of decimal digits: ValueError past the limit. *)
Definition int_of_digits (group : str) : outcome Z :=
  match int_max_str_digits with
  | Some limit =>
      if decide (limit < length group) then Raised
      else Returned (foldl (λ acc c, 10 * acc + char_decimal c)%Z 0%Z group)
  | None => Returned (foldl (λ acc c, 10 * acc + char_decimal c)%Z 0%Z group)
  end.

(** [interaction.client.get_emoji]. *)
Variable get_emoji : Z → option Emoji.

Definition inspect_emoji (emoji : str) : outcome EmojiReply :=
  match emoji_pattern (strip emoji) with
  | None =>
      Returned (ReplyText (py "Unable to extract emoji id from `" ++ emoji ++ py "`."))
  | Some group =>
      emoji_id ← int_of_digits group;
      match get_emoji emoji_id with
      | None =>
          Returned (ReplyText (py "Unable to find emoji with id `" ++ group ++ py "`."))
      | Some the_emoji =>
          Returned (ReplyEmbed (emoji_name the_emoji)
                      [ (py "created at", emoji_created_at the_emoji);
                        (py "url", emoji_url the_emoji) ])
      end
  end.

End emoji.

(** The number a text of ASCII digits writes. *)
Definition decimal (digits : str) : Z :=
  foldl (λ acc c, 10 * acc + (Z.of_N c - 48))%Z 0%Z digits.

Definition is_ascii_digits (s : str) : Prop :=
  Forall (λ c, (48 ≤ c)%N ∧ (c ≤ 57)%N) s.

Program Definition ascii_digits (limit : option nat) : PyDigits := {|
  char_isdecimal c := ((48 <=? c) && (c <=? 57))%N;
  char_decimal c := (Z.of_N c - 48)%Z;
  int_max_str_digits := limit;
|}.

(** A client that knows one emoji, number 123. *)
Definition party_client (emoji_id : Z) : option Emoji :=
  if decide (emoji_id = 123)%Z
  then Some {| emoji_name := py "party"; emoji_created_at := py "2021";
               emoji_url := py "https://cdn/123.gif" |}
  else None.

(** * Properties *)

(** ** The string functions on small inputs *)

Example splitlines_blank_line :
  splitlines (py "a" ++ [LF; LF] ++ py "b" ++ [CR; LF] ++ py "c" ++ [LF])
  = [py "a"; []; py "b"; py "c"].
Proof. reflexivity. Qed.

Example replace_does_not_overlap :
  str_replace (py "aa") (py "b") (py "aaaaa") = py "bba".
Proof. reflexivity. Qed.

Example strip_both_ends : strip (py "  a b " ++ [LF]) = py "a b".
Proof. reflexivity. Qed.

Example clean_escapes_brackets :
  clean (py "see [bar]\r\n   \r\nand [baz]")
  = py "see __bar__" ++ [LF] ++ py "and __baz__".
Proof. vm_compute. reflexivity. Qed.

Example findall_stops_at_first_close :
  findall (py "a[b[c]d]e[") = [py "b[c"].
Proof. vm_compute. reflexivity. Qed.

Lemma match_group_shorter s g rest :
  match_group s = Some (g, rest) → length rest < length s.
Proof.
  revert g rest. induction s as [|c s IH]; intros g rest; simpl; [done|].
  destruct (c =? RBRACK)%N.
  - intros [= <- <-]. lia.
  - destruct (match_group s) as [[g' rest']|] eqn:E; [|done].
    intros [= <- <-]. specialize (IH _ _ eq_refl). lia.
Qed.

Lemma linked_terms_pattern_shorter s g rest :
  linked_terms_pattern s = Some (g, rest) → length rest < length s.
Proof.
  destruct s as [|c s]; simpl; [done|].
  destruct (c =? LBRACK)%N; [|done].
  intros H%match_group_shorter. lia.
Qed.

Lemma findall_cons c s :
  findall (c :: s) =
  match linked_terms_pattern (c :: s) with
  | Some (g, rest) => g :: findall rest
  | None => findall s
  end.
Proof.
  rewrite findall_equation_2. unfold inspect.
  generalize (@eq_refl _ (linked_terms_pattern (c :: s))).
  generalize (linked_terms_pattern (c :: s)) at 2 4 5.
  intros [[g rest]|] E; reflexivity.
Qed.

Lemma match_group_intro g rest :
  RBRACK ∉ g → match_group (g ++ RBRACK :: rest) = Some (g, rest).
Proof.
  induction g as [|c g IH]; simpl; intros Hg.
  - done.
  - apply not_elem_of_cons in Hg as [Hc Hg].
    destruct (N.eqb_spec c RBRACK) as [->|_]; [done|]. by rewrite IH.
Qed.

Lemma match_group_elim s g rest :
  match_group s = Some (g, rest) → s = g ++ RBRACK :: rest ∧ RBRACK ∉ g.
Proof.
  revert g. induction s as [|c s IH]; intros g; simpl; [done|].
  destruct (N.eqb_spec c RBRACK) as [->|Hc].
  - intros [= <- <-]. split; [done|]. apply not_elem_of_nil.
  - destruct (match_group s) as [[g' rest']|]; [|done].
    intros [= <- <-]. destruct (IH g' eq_refl) as [-> Hg'].
    split; [done|]. by apply not_elem_of_cons.
Qed.

Lemma match_group_None s : match_group s = None ↔ RBRACK ∉ s.
Proof.
  induction s as [|c s IH]; simpl.
  - split; [intros _; apply not_elem_of_nil | done].
  - destruct (N.eqb_spec c RBRACK) as [->|Hc].
    + split; [done|]. intros Hn. exfalso. apply Hn. left.
    + rewrite not_elem_of_cons. destruct (match_group s) as [[g rest]|].
      * split; [done|]. intros [_ Hn]. by apply IH in Hn.
      * split; [|done]. intros _. split; [congruence|]. by apply IH.
Qed.

Lemma scan_no_close st s : RBRACK ∉ s → scan st s = [].
Proof.
  revert st. induction s as [|c s IH]; intros st Hs; simpl; [done|].
  apply not_elem_of_cons in Hs as [Hc Hs].
  destruct st as [g|].
  - destruct (N.eqb_spec c RBRACK); [done|]. by apply IH.
  - destruct (c =? LBRACK)%N; by apply IH.
Qed.

Lemma scan_open g s :
  scan (Some g) s =
  match match_group s with
  | Some (g', rest) => (g ++ g') :: scan None rest
  | None => []
  end.
Proof.
  revert g. induction s as [|c s IH]; intros g; simpl; [done|].
  destruct (N.eqb_spec c RBRACK) as [->|Hc].
  - by rewrite app_nil_r.
  - rewrite IH. destruct (match_group s) as [[g' rest]|]; [|done].
    by rewrite <-app_assoc.
Qed.

(** [findall] agrees with the character-by-character scan. *)
Lemma findall_scan s : findall s = scan None s.
Proof.
  remember (length s) as n eqn:Hn. revert s Hn.
  induction n as [n IH] using lt_wf_ind. intros [|c s] Hn.
  - by rewrite findall_equation_1.
  - rewrite findall_cons. simpl in *. destruct (N.eqb_spec c LBRACK) as [_|_].
    + rewrite scan_open. destruct (match_group s) as [[g rest]|] eqn:E.
      * f_equal. apply (IH (length rest)); [|done].
        apply match_group_shorter in E. lia.
      * rewrite (IH (length s)) by (done || lia).
        apply scan_no_close. by apply match_group_None.
    + apply (IH (length s)); [lia|done].
Qed.

Lemma scan_app st a b : scan st (a ++ b) = scan st a ++ scan (scan_state st a) b.
Proof.
  revert st. induction a as [|c a IH]; intros st; simpl; [done|].
  destruct st as [g|].
  - destruct (c =? RBRACK)%N; [|done]. by rewrite IH.
  - by destruct (c =? LBRACK)%N.
Qed.

Lemma open_pending_scan_state st s :
  open_pending (bool_decide (is_Some st)) s = bool_decide (is_Some (scan_state st s)).
Proof.
  revert st. induction s as [|c s IH]; intros st; simpl; [done|].
  destruct st as [g|].
  - destruct (N.eqb_spec c RBRACK) as [->|Hc]; [apply (IH None)|].
    destruct (c =? LBRACK)%N; apply (IH (Some (g ++ [c]))).
  - destruct (N.eqb_spec c RBRACK) as [->|Hc]; [apply (IH None)|].
    destruct (c =? LBRACK)%N; [apply (IH (Some [])) | apply (IH None)].
Qed.

Lemma unclosed_false s : unclosed s = false → scan_state None s = None.
Proof.
  unfold unclosed. rewrite (open_pending_scan_state None).
  destruct (scan_state None s); [|done].
  intros Hb. apply bool_decide_eq_false in Hb. by destruct Hb.
Qed.

(** Scanning two texts one after the other finds what scanning their
    concatenation finds, when the first does not end inside a bracket or the
    second holds no closing bracket. *)
Lemma findall_app a b :
  unclosed a = false ∨ RBRACK ∉ b → findall (a ++ b) = findall a ++ findall b.
Proof.
  intros Hab. rewrite !findall_scan, scan_app. f_equal.
  destruct Hab as [Ha|Hb].
  - by rewrite (unclosed_false a Ha).
  - by rewrite !scan_no_close.
Qed.

Lemma scan_no_open s : LBRACK ∉ s → scan None s = [] ∧ scan_state None s = None.
Proof.
  induction s as [|c s IH]; simpl; [done|].
  intros [Hc Hs]%not_elem_of_cons.
  destruct (N.eqb_spec c LBRACK); [done|]. by apply IH.
Qed.

(** A bracketed group that stands where the scan is not inside a bracket is
    one match. *)
Lemma findall_bracketed pre g post :
  unclosed pre = false → RBRACK ∉ g →
  findall (pre ++ LBRACK :: g ++ RBRACK :: post) = findall pre ++ g :: findall post.
Proof.
  intros Hpre Hg. rewrite findall_app by by left. f_equal.
  rewrite findall_cons. simpl. by rewrite match_group_intro.
Qed.

Lemma unclosed_no_open s : LBRACK ∉ s → unclosed s = false.
Proof.
  intros Hs. unfold unclosed. rewrite (open_pending_scan_state None).
  by rewrite (proj2 (scan_no_open s Hs)).
Qed.

Lemma findall_no_open s : LBRACK ∉ s → findall s = [].
Proof. intros Hs. rewrite findall_scan. by apply scan_no_open. Qed.

(** ** The terms the loop keeps *)

Lemma fresh_terms_elem seen l x :
  x ∈ fresh_terms seen l ↔ x ∈ l ∧ x ∉ seen.
Proof.
  revert seen. induction l as [|a l IH]; intros seen; simpl.
  - rewrite !elem_of_nil. tauto.
  - destruct (decide (a ∈ seen)) as [Ha|Ha].
    + rewrite IH, elem_of_cons. split; [tauto|].
      intros [[->|Hx] Hn]; [done|tauto].
    + rewrite !elem_of_cons, IH. rewrite not_elem_of_union, not_elem_of_singleton.
      split.
      * intros [->|(Hx & Hn & Hne)]; tauto.
      * intros [[->|Hx] Hn]; [tauto|].
        destruct (decide (x = a)); tauto.
Qed.

Lemma fresh_terms_NoDup seen l : NoDup (fresh_terms seen l).
Proof.
  revert seen. induction l as [|a l IH]; intros seen; simpl.
  - constructor.
  - destruct (decide (a ∈ seen)); [apply IH|].
    constructor; [|apply IH].
    rewrite fresh_terms_elem. set_solver.
Qed.

Lemma fresh_terms_sublist seen l : fresh_terms seen l `sublist_of` l.
Proof.
  revert seen. induction l as [|a l IH]; intros seen; simpl; [done|].
  destruct (decide (a ∈ seen)).
  - by apply sublist_cons.
  - by apply sublist_skip.
Qed.

(** First-seen order: of two terms kept, the one kept first is met in the
    list before the other is met at all. *)
Lemma fresh_terms_first_seen seen l i j x y :
  fresh_terms seen l !! i = Some x → fresh_terms seen l !! j = Some y → i < j →
  ∃ k, l !! k = Some x ∧ y ∉ take k l.
Proof.
  revert seen i j. induction l as [|a l IH]; intros seen i j; simpl; [done|].
  destruct (decide (a ∈ seen)) as [Ha|Ha].
  - intros Hi Hj Hij. destruct (IH _ _ _ Hi Hj Hij) as (k & Hk & Hy).
    exists (S k). split; [done|]. simpl. apply not_elem_of_cons. split; [|done].
    intros ->. apply list_elem_of_lookup_2, fresh_terms_elem in Hj. tauto.
  - destruct i as [|i]; simpl.
    + intros [= ->] _ _. exists 0. split; [done|]. apply not_elem_of_nil.
    + destruct j as [|j]; [lia|]. simpl. intros Hi Hj Hij.
      destruct (IH _ _ _ Hi Hj ltac:(lia)) as (k & Hk & Hy).
      exists (S k). split; [done|]. simpl. apply not_elem_of_cons. split; [|done].
      intros ->. apply list_elem_of_lookup_2, fresh_terms_elem in Hj. set_solver.
Qed.

Lemma fresh_terms_app seen l1 l2 :
  fresh_terms seen (l1 ++ l2) =
  fresh_terms seen l1 ++ fresh_terms (seen ∪ list_to_set l1) l2.
Proof.
  revert seen. induction l1 as [|a l1 IH]; intros seen; simpl.
  - by rewrite union_empty_r_L.
  - destruct (decide (a ∈ seen)) as [Ha|Ha].
    + rewrite IH. do 2 f_equal. set_solver.
    + simpl. rewrite IH. do 3 f_equal. set_solver.
Qed.

Section loop.
Context `{PyRuntime}.

(** The loop adds one button per kept term, in the order the terms are
    kept, behind the items the view already has. *)
Lemma add_items_spec trail other_terms items seen :
  add_items trail other_terms items seen =
  (items ++ ((λ t, UbanDictionaryButton t trail) <$> fresh_terms seen (lower <$> other_terms)),
   seen ∪ list_to_set (lower <$> other_terms)).
Proof.
  revert items seen. induction other_terms as [|t l IH]; intros items seen; simpl.
  - by rewrite app_nil_r, union_empty_r_L.
  - destruct (decide (lower t ∈ seen)) as [Ht|Ht]; rewrite IH.
    + f_equal. set_solver.
    + simpl. rewrite <-app_assoc. simpl. f_equal. set_solver.
Qed.

Lemma extract_spec text seen :
  extract text seen = fresh_terms seen (lower <$> findall text).
Proof.
  unfold extract. rewrite add_items_spec. simpl.
  rewrite <-list_fmap_compose. apply list_fmap_id.
Qed.

Lemma render_str w body ex link trail :
  render {| word := VStr w; definition := VStr body; example := VStr ex;
            permalink := link |} trail =
  Returned {| content := None;
              embed := Some (description_of w body ex link trail);
              view := (λ t, UbanDictionaryButton t (trail ++ [w]))
                        <$> fresh_terms ∅ (lower <$> (findall body ++ findall ex)) |}.
Proof.
  unfold render. simpl. rewrite add_items_spec. reflexivity.
Qed.

Lemma render_Returned d trail msg :
  render d trail = Returned msg →
  ∃ w body ex, d = {| word := VStr w; definition := VStr body;
                      example := VStr ex; permalink := permalink d |}.
Proof.
  destruct d as [w b e p]. unfold render. simpl.
  destruct w; try done. destruct b; try done. destruct e; try done.
  intros _. eauto.
Qed.

End loop.

Example scenario_fetch_foo :
  @fetch_urban_dictionary_definition (ascii_runtime scenario_known) scenario_get (py "foo")
  = Returned (Some foo_record).
Proof. vm_compute. reflexivity. Qed.

Example scenario_fetch_bar :
  @fetch_urban_dictionary_definition (ascii_runtime scenario_known) scenario_get (py "bar")
  = Returned (Some bar_record).
Proof. vm_compute. reflexivity. Qed.

Example scenario_fetch_other :
  @fetch_urban_dictionary_definition (ascii_runtime scenario_known) scenario_get (py "a b")
  = Returned None.
Proof. vm_compute. reflexivity. Qed.

Example findall_see :
  findall (py "see [foo] and [FOO] and [bar]") = [py "foo"; py "FOO"; py "bar"].
Proof. vm_compute. reflexivity. Qed.

(** ** Evaluating the flow on ASCII text under any runtime *)

Section ascii_text.
Context `{PyRuntime}.

Lemma lower_fmap_ascii (l : list str) :
  Forall is_ascii l → lower <$> l = (fmap ascii_lower) <$> l.
Proof.
  induction 1 as [|s l Hs _ IH]; [done|].
  rewrite !fmap_cons. by rewrite lower_ascii, IH.
Qed.

Lemma is_ascii_app a b : is_ascii a → is_ascii b → is_ascii (a ++ b).
Proof. apply Forall_app_2. Qed.

End ascii_text.

Section claims.
Context `{PyRuntime}.

(** C1.  For every text [T] and every exclusion set [S], the terms
    extracted (bracket-delimited substrings, lower-cased) hold no term of
    [S], hold no term twice, are exactly the lower-cased matches outside
    [S], and stand in first-seen order: of two returned terms, the earlier
    one is met in the scan before the later one is met at all.  In
    particular extracting from "see [foo] and [FOO] and [bar]" with an empty
    exclusion set yields "foo", "bar". *)
Theorem extract_excludes_dedups_first_seen (T : str) (S : gset (list N)) :
  (∀ x, x ∈ extract T S → x ∉ S)
  ∧ NoDup (extract T S)
  ∧ (∀ x, x ∈ extract T S ↔ x ∈ lower <$> findall T ∧ x ∉ S)
  ∧ (∀ i j x y,
       extract T S !! i = Some x → extract T S !! j = Some y → i < j →
       ∃ k, (lower <$> findall T) !! k = Some x
            ∧ y ∉ take k (lower <$> findall T))
  ∧ extract (py "see [foo] and [FOO] and [bar]") ∅ = [py "foo"; py "bar"].
Proof.
  rewrite !extract_spec. split_and!.
  - intros x Hx. by apply fresh_terms_elem in Hx as [_ ?].
  - apply fresh_terms_NoDup.
  - intros x. apply fresh_terms_elem.
  - intros i j x y. apply fresh_terms_first_seen.
  - rewrite findall_see, lower_fmap_ascii by ascii_text.
    vm_compute. reflexivity.
Qed.

(** C2, as amended.  When a definition is rendered, a cross-reference that
    (after lower-casing) repeats one met earlier in the same render call is
    dropped and produces no second action; every other cross-reference
    produces one, whether or not it equals the current term or a term of
    the breadcrumb trail. *)
Theorem render_drops_repeats_only (w body ex : str) (link : pyval) (trail : list str) :
  ∃ msg,
    render {| word := VStr w; definition := VStr body; example := VStr ex;
              permalink := link |} trail = Returned msg
    ∧ NoDup (label <$> view msg)
    ∧ (∀ x, x ∈ label <$> view msg ↔ x ∈ lower <$> (findall body ++ findall ex)).
Proof.
  eexists. split; [apply render_str|]. simpl.
  rewrite <-list_fmap_compose, list_fmap_id. split.
  - apply fresh_terms_NoDup.
  - intros x. rewrite fresh_terms_elem. set_solver.
Qed.

(** C3.  For every definition record and every breadcrumb trail, every
    follow-up action produced by rendering carries the incoming trail with
    the headword appended at the end, one element longer than the incoming
    trail, and triggering the action runs the flow with that trail.
    Rendering returns exactly for the records whose word, definition and
    example are [str] values; for any other record it raises and produces no
    action.  Trails are passed by value, as the tuples of the source are: the
    incoming trail is not changed. *)
Theorem actions_carry_new_trail (d : UrbanDefinition) (trail : list str) :
  match render d trail with
  | Returned msg =>
      ∃ w, word d = VStr w
           ∧ Forall (λ b, previous_terms b = trail ++ [w]
                          ∧ length (previous_terms b) = S (length trail)
                          ∧ ∀ get, callback get b
                                   = send_urban_dictionary_definition get (term b)
                                       (trail ++ [w]))
                    (view msg)
  | Raised =>
      ∀ w body ex, d ≠ {| word := VStr w; definition := VStr body;
                          example := VStr ex; permalink := permalink d |}
  end.
Proof.
  destruct d as [w b e p].
  destruct w as [| | | |w| |]; try (simpl; intros ??? [=]; fail).
  destruct b as [| | | |b| |]; try (simpl; intros ??? [=]; fail).
  destruct e as [| | | |e| |]; try (simpl; intros ??? [=]; fail).
  rewrite render_str. exists w. split; [done|]. simpl.
  apply Forall_fmap, Forall_forall. intros t _. simpl.
  split_and!; [done| |done]. rewrite length_app. simpl. lia.
Qed.

(** C5.  Whenever the fetch step returns NotFound, the flow ends with the
    fixed failure message and no follow-up action, for every term and every
    breadcrumb trail. *)
Theorem not_found_is_terminal (get : str → outcome (list Byte.byte))
    (term : str) (trail : list str) :
  fetch_urban_dictionary_definition get term = Returned None →
  send_urban_dictionary_definition get term trail
  = Returned {| content := Some (py "Failed to get a definition");
                embed := None; view := [] |}.
Proof.
  intros Hfetch. unfold send_urban_dictionary_definition.
  by rewrite Hfetch.
Qed.

End claims.

(** The labels include "bar", a term of the trail, and "foo", the current
    term. *)
Lemma trail_and_current_term_kept :
  ∃ msg,
    @render (ascii_runtime [])
      {| word := VStr (py "foo"); definition := VStr (py "[bar] and [foo]");
         example := VStr []; permalink := VStr (py "http://x") |} [py "bar"]
    = Returned msg
    ∧ label <$> view msg = [py "bar"; py "foo"].
Proof. eexists. split; [vm_compute; reflexivity|]. vm_compute. reflexivity. Qed.

Lemma not_found_is_terminal_witness :
  @fetch_urban_dictionary_definition (ascii_runtime scenario_known) scenario_get (py "a b")
  = Returned None
  ∧ @send_urban_dictionary_definition (ascii_runtime scenario_known) scenario_get
      (py "a b") [py "foo"]
    = Returned {| content := Some (py "Failed to get a definition");
                  embed := None; view := [] |}.
Proof.
  split; [vm_compute; reflexivity|].
  apply (@not_found_is_terminal (ascii_runtime scenario_known)).
  vm_compute. reflexivity.
Defined.

(** ** The fetch step *)

Lemma outcome_bind_Returned {A B} (m : outcome A) (f : A → outcome B) b :
  m ≫= f = Returned b ↔ ∃ a, m = Returned a ∧ f a = Returned b.
Proof.
  destruct m as [a|]; simpl.
  - split; [eauto|]. by intros (a' & [= <-] & ?).
  - split; [done|]. by intros (a' & ? & _).
Qed.

Lemma of_option_Returned {A} (o : option A) a : of_option o = Returned a ↔ o = Some a.
Proof. destruct o; simpl; split; congruence. Qed.

Lemma subscript_key_Returned obj key v :
  subscript_key obj key = Returned v ↔ ∃ m, obj = VDict m ∧ m !! key = Some v.
Proof.
  destruct obj; simpl; try (split; [done | by intros (? & ? & _)]).
  rewrite of_option_Returned. split; [eauto|]. by intros (? & [= <-] & ?).
Qed.

(** [candidates[0]] is a [dict] exactly when [candidates] is a list that
    starts with it: the first character of a [str] is a [str]. *)
Lemma subscript_index_0_dict candidates first :
  subscript_index candidates 0 = Returned (VDict first)
  ↔ ∃ rest, candidates = VList (VDict first :: rest).
Proof.
  destruct candidates as [| | | |s|l|]; simpl;
    try (split; [done | by intros (? & ?)]).
  - split; [|by intros (? & ?)].
    destruct s as [|c s]; [done|]. unfold sequence_index. simpl.
    destruct (decide (0 < Z.pos (Pos.of_succ_nat (length s)))%Z); done.
  - destruct l as [|v l]; [split; [done | by intros (? & ?)]|].
    unfold sequence_index. simpl.
    destruct (decide (0 < Z.pos (Pos.of_succ_nat (length l)))%Z); [|lia].
    simpl. split.
    + intros [= ->]. eauto.
    + by intros (rest & [= -> ->]).
Qed.

Section fetching.
Context `{PyRuntime}.
Variable get : str → outcome (list Byte.byte).

Lemma fetch_NotFound term :
  fetch_urban_dictionary_definition get term = Returned None
  ↔ ∃ path, quote term = Some path
            ∧ get (py "/v0/define?term=" ++ path) = Returned [].
Proof.
  unfold fetch_urban_dictionary_definition.
  rewrite outcome_bind_Returned. setoid_rewrite of_option_Returned.
  setoid_rewrite outcome_bind_Returned. split.
  - intros (path & Hq & data & Hget & Hrest). exists path. split; [done|].
    destruct data as [|b data]; [done|]. exfalso. simpl in Hrest.
    repeat (apply outcome_bind_Returned in Hrest as (? & _ & Hrest)). done.
  - intros (path & Hq & Hget). exists path. split; [done|]. by exists [].
Qed.

Lemma fetch_Found term d :
  fetch_urban_dictionary_definition get term = Returned (Some d)
  ↔ ∃ path data text response first rest,
      quote term = Some path
      ∧ get (py "/v0/define?term=" ++ path) = Returned data
      ∧ data ≠ []
      ∧ utf8_decode data = Some text
      ∧ json_loads text = Some (VDict response)
      ∧ response !! py "list" = Some (VList (VDict first :: rest))
      ∧ first !! py "word" = Some (word d)
      ∧ first !! py "definition" = Some (definition d)
      ∧ first !! py "example" = Some (example d)
      ∧ first !! py "permalink" = Some (permalink d).
Proof.
  unfold fetch_urban_dictionary_definition. split.
  - intros Hf.
    apply outcome_bind_Returned in Hf as (path & Hq%of_option_Returned & Hf).
    apply outcome_bind_Returned in Hf as (data & Hget & Hf).
    destruct data as [|b data]; [done|]. simpl in Hf.
    apply outcome_bind_Returned in Hf as (text & Hdec%of_option_Returned & Hf).
    apply outcome_bind_Returned in Hf as (resp & Hjson%of_option_Returned & Hf).
    apply outcome_bind_Returned in Hf as (cands & Hlist & Hf).
    apply outcome_bind_Returned in Hf as (fst & Hfirst & Hf).
    apply outcome_bind_Returned in Hf as (w & Hw & Hf).
    apply outcome_bind_Returned in Hf as (df & Hd & Hf).
    apply outcome_bind_Returned in Hf as (e & He & Hf).
    apply outcome_bind_Returned in Hf as (p & Hp & Hf).
    injection Hf as <-. simpl.
    apply subscript_key_Returned in Hlist as (response & -> & Hlist).
    apply subscript_key_Returned in Hw as (first & -> & Hw).
    apply subscript_key_Returned in Hd as (? & [= <-] & Hd).
    apply subscript_key_Returned in He as (? & [= <-] & He).
    apply subscript_key_Returned in Hp as (? & [= <-] & Hp).
    apply subscript_index_0_dict in Hfirst as (rest & ->).
    exists path, (b :: data), text, response, first, rest. done.
  - intros (path & data & text & response & first & rest
            & Hq & Hget & Hdata & Hdec & Hjson & Hlist & Hw & Hd & He & Hp).
    apply outcome_bind_Returned. exists path. split; [by rewrite Hq|].
    apply outcome_bind_Returned. exists data. split; [done|].
    destruct data as [|b data]; [done|]. simpl.
    rewrite Hdec. simpl. rewrite Hjson. simpl. rewrite Hlist. simpl.
    rewrite Hw, Hd, He, Hp. simpl. by destruct d.
Qed.

(** C4, as amended.  The definition fetcher returns NotFound if and only if
    the response body is empty.  It returns a record exactly for a non-empty
    response that decodes to a JSON object whose [list] array starts with an
    object holding the four fields: the record is made of the values that
    first element has for word, definition, example and permalink, verbatim,
    whatever else the candidates hold.  On every other non-empty response the
    fetch step raises. *)
Theorem fetch_outcomes (term : str) :
  (fetch_urban_dictionary_definition get term = Returned None
   ↔ ∃ path, quote term = Some path
             ∧ get (py "/v0/define?term=" ++ path) = Returned [])
  ∧ (∀ d, fetch_urban_dictionary_definition get term = Returned (Some d)
          ↔ ∃ path data text response first rest,
              quote term = Some path
              ∧ get (py "/v0/define?term=" ++ path) = Returned data
              ∧ data ≠ []
              ∧ utf8_decode data = Some text
              ∧ json_loads text = Some (VDict response)
              ∧ response !! py "list" = Some (VList (VDict first :: rest))
              ∧ first !! py "word" = Some (word d)
              ∧ first !! py "definition" = Some (definition d)
              ∧ first !! py "example" = Some (example d)
              ∧ first !! py "permalink" = Some (permalink d))
  ∧ (fetch_urban_dictionary_definition get term = Raised
     ∨ fetch_urban_dictionary_definition get term = Returned None
     ∨ ∃ d, fetch_urban_dictionary_definition get term = Returned (Some d)).
Proof.
  split_and!.
  - apply fetch_NotFound.
  - apply fetch_Found.
  - destruct (fetch_urban_dictionary_definition get term) as [[d|]|]; eauto.
Qed.

End fetching.

(** C4 as stated fails on the eleven bytes of an object whose [list] is
    empty: the body is not empty, there is no first element to select, and
    the fetch step raises. *)
Lemma fetch_raises_without_candidate :
  ascii_encode no_candidate_text ≠ []
  ∧ @json_loads (ascii_runtime no_candidate_known) no_candidate_text
    = Some (VDict {[ py "list" := VList [] ]})
  ∧ @fetch_urban_dictionary_definition (ascii_runtime no_candidate_known)
      (λ _, Returned (ascii_encode no_candidate_text)) (py "zzz")
    = Raised.
Proof. split_and!; [done|vm_compute; reflexivity..]. Qed.

(** ** The buttons of a reply *)

Lemma fresh_terms_to_set seen l :
  seen ∪ list_to_set (fresh_terms seen l) = seen ∪ list_to_set l.
Proof.
  apply set_eq. intros x.
  rewrite !elem_of_union, !elem_of_list_to_set, fresh_terms_elem.
  destruct (decide (x ∈ seen)); tauto.
Qed.

Lemma filter_label_none trail (l : list str) x
    `{!∀ b : Button, Decision (label b = x)} :
  x ∉ l → filter (λ b, label b = x) ((λ t, UbanDictionaryButton t trail) <$> l) = [].
Proof.
  induction l as [|a l IH]; [done|].
  intros [Hxa Hx]%not_elem_of_cons. rewrite fmap_cons.
  rewrite filter_cons_False by (simpl; congruence). by apply IH.
Qed.

Lemma filter_label_once trail (l : list str) x
    `{!∀ b : Button, Decision (label b = x)} :
  NoDup l → x ∈ l →
  filter (λ b, label b = x) ((λ t, UbanDictionaryButton t trail) <$> l)
  = [UbanDictionaryButton x trail].
Proof.
  induction 1 as [|a l Ha Hl IH]; [by intros ?%elem_of_nil|].
  rewrite fmap_cons. destruct (decide (a = x)) as [->|Hne].
  - intros _. rewrite filter_cons_True by done. by rewrite filter_label_none.
  - intros [?|Hx]%elem_of_cons; [congruence|].
    rewrite filter_cons_False by (simpl; congruence). by apply IH.
Qed.

Lemma NoDup_all_equal (l : list str) x :
  NoDup l → x ∈ l → (∀ y, y ∈ l → y = x) → l = [x].
Proof.
  intros Hl Hx Hall. destruct Hl as [|a l Ha Hl]; [by apply elem_of_nil in Hx|].
  assert (a = x) as -> by (apply Hall; left).
  destruct l as [|b l]; [done|].
  exfalso. apply Ha. rewrite (Hall b) by (right; left). left.
Qed.

Example findall_see_bar : findall (py "see [bar]") = [py "bar"].
Proof. vm_compute. reflexivity. Qed.

Lemma has_empty_pair_findall s : has_empty_pair s → [] ∈ findall s.
Proof.
  intros (pre & post & -> & Hpre).
  change (py "[]" ++ post) with (LBRACK :: [] ++ RBRACK :: post).
  rewrite findall_bracketed by (done || apply not_elem_of_nil).
  apply elem_of_app. right. left.
Qed.

Lemma has_term_findall g s : RBRACK ∉ g → has_term g s → g ∈ findall s.
Proof.
  intros Hg (pre & post & -> & Hpre).
  change ([LBRACK] ++ g ++ [RBRACK] ++ post) with (LBRACK :: g ++ RBRACK :: post).
  rewrite findall_bracketed by done.
  apply elem_of_app. right. left.
Qed.

(** The order of its items is part of a [dict], as it is of what [str] shows
    of one; what a key reads does not depend on it. *)
Example dict_items_order :
  VDict [(py "a", VInt 1); (py "b", VInt 2)] ≠ VDict [(py "b", VInt 2); (py "a", VInt 1)]
  ∧ ∀ key : str, [(py "a", VInt 1); (py "b", VInt 2)] !! key
                 = [(py "b", VInt 2); (py "a", VInt 1)] !! key.
Proof.
  split; [discriminate|]. intros key. unfold lookup, dict_lookup. simpl.
  destruct (decide (py "a" = key)) as [<-|]; [done|].
  by destruct (decide (py "b" = key)).
Qed.

(** [render] consults the runtime for two things only: the lower-case form of
    the terms it finds and the text of the link. *)
Lemma render_reads_lower_and_format (R1 R2 : PyRuntime) d trail :
  (∀ body ex g, definition d = VStr body → example d = VStr ex →
     g ∈ findall body ++ findall ex → @lower R1 g = @lower R2 g) →
  @format_value R1 (permalink d) = @format_value R2 (permalink d) →
  @render R1 d trail = @render R2 d trail.
Proof.
  destruct d as [w body ex link]. simpl. intros Hlower Hformat.
  destruct w as [| | | |w| |]; try done.
  destruct body as [| | | |body| |]; try done.
  destruct ex as [| | | |ex| |]; try done.
  assert (@lower R1 <$> (findall body ++ findall ex)
          = @lower R2 <$> (findall body ++ findall ex)) as Hterms.
  { apply list_fmap_ext. intros _ g Hg%list_elem_of_lookup_2. eauto. }
  rewrite !render_str. unfold description_of. by rewrite Hformat, Hterms.
Qed.

Section replies.
Context `{PyRuntime}.

(** C6.  Round trip.  When the fetch step returns the record for "foo"
    (definition "see [bar]", empty example, link "http://x") and the trail is
    empty, the reply has the title line "# foo" and exactly one action,
    labelled "bar", whose trail is "foo" alone; triggering that action, with
    the fetch step returning the record for "bar" (empty definition and
    example, link "http://y"), gives a reply with the title line
    "# foo > bar" and no action. *)
Theorem round_trip (get1 get2 : str → outcome (list Byte.byte)) (term1 : str) :
  fetch_urban_dictionary_definition get1 term1 = Returned (Some foo_record) →
  fetch_urban_dictionary_definition get2 (py "bar") = Returned (Some bar_record) →
  send_urban_dictionary_definition get1 term1 []
  = Returned {| content := None;
                embed := Some (str_join [LF]
                  [py "# foo"; py "### see __bar__"; [LF]; py "[website](http://x)"]);
                view := [ {| label := py "bar"; term := py "bar";
                             previous_terms := [py "foo"] |} ] |}
  ∧ callback get2 {| label := py "bar"; term := py "bar";
                     previous_terms := [py "foo"] |}
    = Returned {| content := None;
                  embed := Some (str_join [LF]
                    [py "# foo > bar"; [LF]; py "[website](http://y)"]);
                  view := [] |}.
Proof.
  intros Hfoo Hbar. unfold callback, send_urban_dictionary_definition. simpl.
  rewrite Hfoo, Hbar. simpl. unfold foo_record, bar_record.
  rewrite !render_str. unfold description_of. rewrite !format_value_str.
  rewrite findall_see_bar, findall_equation_1.
  rewrite !lower_fmap_ascii by ascii_text.
  split; vm_compute; reflexivity.
Qed.

(** C7, as amended.  The cross-references collected while rendering are the
    Term Extractor's result on the body, followed by its result on the
    example with the terms of the body already seen: the two texts are
    scanned one after the other, not as one text.  This is the extraction
    from the body concatenated with the example whenever the body does not
    end inside an unclosed bracket or the example holds no closing bracket. *)
Theorem render_scans_body_then_example (w body ex : str) (link : pyval)
    (trail : list str) :
  ∃ msg,
    render {| word := VStr w; definition := VStr body; example := VStr ex;
              permalink := link |} trail = Returned msg
    ∧ label <$> view msg
      = extract body ∅ ++ extract ex (list_to_set (extract body ∅))
    ∧ (unclosed body = false ∨ RBRACK ∉ ex →
       label <$> view msg = extract (body ++ ex) ∅).
Proof.
  eexists. split; [apply render_str|]. simpl.
  rewrite <-list_fmap_compose, list_fmap_id, !extract_spec. split.
  - rewrite fmap_app, fresh_terms_app. do 2 f_equal.
    rewrite <-(union_empty_l_L (list_to_set (fresh_terms _ _))).
    by rewrite fresh_terms_to_set.
  - intros Hsplit. by rewrite findall_app.
Qed.

(** C8, as amended.  For a definition whose body contains "[Bar]" and whose
    example contains "[bar]", each standing where the scan looks for a match
    (the text before it does not end inside an unclosed bracket), the scan
    finds both terms and exactly one follow-up action is labelled "bar"
    (lower-cased), whatever the rest of the inputs is.  Every bracketed term
    the scan finds yields exactly one action of its own, labelled with the
    lower-cased term, and every action comes from such a term; so the action
    "bar" is the only one exactly when every term found is a spelling of
    "bar". *)
Theorem folded_reference_once (w body ex : str) (link : pyval) (trail : list str) :
  has_term (py "Bar") body → has_term (py "bar") ex →
  (py "Bar" ∈ findall body ∧ py "bar" ∈ findall ex)
  ∧ ∃ msg,
      render {| word := VStr w; definition := VStr body; example := VStr ex;
                permalink := link |} trail = Returned msg
      ∧ filter (λ b, label b = py "bar") (view msg)
        = [UbanDictionaryButton (py "bar") (trail ++ [w])]
      ∧ (∀ g, g ∈ findall body ++ findall ex →
           filter (λ b, label b = lower g) (view msg)
           = [UbanDictionaryButton (lower g) (trail ++ [w])])
      ∧ (∀ b, b ∈ view msg →
           ∃ g, g ∈ findall body ++ findall ex
                ∧ b = UbanDictionaryButton (lower g) (trail ++ [w]))
      ∧ ((∀ g, g ∈ findall body ++ findall ex → lower g = py "bar")
         ↔ view msg = [UbanDictionaryButton (py "bar") (trail ++ [w])]).
Proof.
  intros HBar%has_term_findall Hbar%has_term_findall; [|compute_done..].
  split; [done|]. eexists. split; [apply render_str|]. simpl.
  set (kept := fresh_terms ∅ (lower <$> (findall body ++ findall ex))).
  assert (∀ g, g ∈ findall body ++ findall ex → lower g ∈ kept) as Hkept.
  { intros g Hg. apply fresh_terms_elem. split; [|set_solver].
    apply list_elem_of_fmap. by exists g. }
  assert (py "bar" ∈ kept) as Hin.
  { assert (lower (py "bar") = py "bar") as <- by (by rewrite lower_ascii by ascii_text).
    apply Hkept, elem_of_app. by right. }
  split_and!.
  - apply filter_label_once; [apply fresh_terms_NoDup | done].
  - intros g Hg. apply filter_label_once; [apply fresh_terms_NoDup | by apply Hkept].
  - intros b (t & -> & [Ht _]%fresh_terms_elem)%list_elem_of_fmap.
    apply list_elem_of_fmap in Ht as (g & -> & Hg). by exists g.
  - split.
    + intros Hall.
      rewrite (NoDup_all_equal kept (py "bar") (fresh_terms_NoDup _ _) Hin); [done|].
      intros y [Hy _]%fresh_terms_elem.
      apply list_elem_of_fmap in Hy as (g & -> & Hg). by apply Hall.
    + intros Hview g Hg.
      assert (UbanDictionaryButton (lower g) (trail ++ [w])
              ∈ (λ t, UbanDictionaryButton t (trail ++ [w])) <$> kept) as Hb.
      { apply list_elem_of_fmap. exists (lower g). split; [done | by apply Hkept]. }
      rewrite Hview in Hb. apply list_elem_of_singleton in Hb.
      by injection Hb.
Qed.

(** C10, as amended.  An empty bracket pair in the body or the example that
    stands where the scan looks for a match (the text before it does not end
    inside an unclosed bracket) is captured as a cross-reference: the scan
    reports the empty string, and rendering produces exactly one follow-up
    action whose label and target term are the empty string. *)
Theorem empty_pair_gives_empty_action (w body ex : str) (link : pyval)
    (trail : list str) :
  has_empty_pair body ∨ has_empty_pair ex →
  [] ∈ findall body ++ findall ex
  ∧ ∃ msg,
      render {| word := VStr w; definition := VStr body; example := VStr ex;
                permalink := link |} trail = Returned msg
      ∧ filter (λ b, label b = []) (view msg)
        = [ {| label := []; term := []; previous_terms := trail ++ [w] |} ].
Proof.
  intros Hpair.
  assert ([] ∈ findall body ++ findall ex) as Hin.
  { apply elem_of_app. destruct Hpair as [?%has_empty_pair_findall|?%has_empty_pair_findall]; eauto. }
  split; [done|]. eexists. split; [apply render_str|]. simpl.
  apply (filter_label_once (trail ++ [w]) _ []); [apply fresh_terms_NoDup|].
  apply fresh_terms_elem. split; [|set_solver].
  apply list_elem_of_fmap. exists []. split; [|done].
  symmetry. apply (lower_ascii []). constructor.
Qed.

End replies.

(** C9.  Rendering is deterministic: the reply is determined by the
    definition record and the trail.  Two runs of the flow in which the fetch
    step returned the same record, started with the same trail, have the
    same outcome -- both raise, or both return, and then the texts displayed
    are equal and the ordered lists of actions (label, target term and trail
    of each) are equal -- whatever term was asked for, whatever the server
    answered and whatever else differs between the environments of the two
    runs: of its environment a run consults only [str.lower], on the
    bracketed terms of the record, and the formatting of the record's
    link. *)
Theorem reply_determined_by_record_and_trail (R1 R2 : PyRuntime)
    (get1 get2 : str → outcome (list Byte.byte)) (term1 term2 : str)
    (d : UrbanDefinition) (trail : list str) :
  (∀ body ex g, definition d = VStr body → example d = VStr ex →
     g ∈ findall body ++ findall ex → @lower R1 g = @lower R2 g) →
  @format_value R1 (permalink d) = @format_value R2 (permalink d) →
  @fetch_urban_dictionary_definition R1 get1 term1 = Returned (Some d) →
  @fetch_urban_dictionary_definition R2 get2 term2 = Returned (Some d) →
  @send_urban_dictionary_definition R1 get1 term1 trail
  = @send_urban_dictionary_definition R2 get2 term2 trail
  ∧ ∀ msg1 msg2,
      @send_urban_dictionary_definition R1 get1 term1 trail = Returned msg1 →
      @send_urban_dictionary_definition R2 get2 term2 trail = Returned msg2 →
      embed msg1 = embed msg2 ∧ view msg1 = view msg2.
Proof.
  intros Hlower Hformat H1 H2.
  assert (@send_urban_dictionary_definition R1 get1 term1 trail
          = @send_urban_dictionary_definition R2 get2 term2 trail) as Hsame.
  { unfold send_urban_dictionary_definition. rewrite H1, H2. simpl.
    by apply render_reads_lower_and_format. }
  split; [done|]. rewrite Hsame. intros msg1 msg2 -> [= ->]. done.
Qed.

(** ** The claims at concrete inputs *)

Lemma round_trip_witness :
  (@fetch_urban_dictionary_definition (ascii_runtime scenario_known) scenario_get (py "foo")
   = Returned (Some foo_record)
   ∧ @fetch_urban_dictionary_definition (ascii_runtime scenario_known) scenario_get (py "bar")
     = Returned (Some bar_record))
  ∧ @send_urban_dictionary_definition (ascii_runtime scenario_known) scenario_get (py "foo") []
    = Returned {| content := None;
                  embed := Some (str_join [LF]
                    [py "# foo"; py "### see __bar__"; [LF]; py "[website](http://x)"]);
                  view := [ {| label := py "bar"; term := py "bar";
                               previous_terms := [py "foo"] |} ] |}
  ∧ @callback (ascii_runtime scenario_known) scenario_get
      {| label := py "bar"; term := py "bar"; previous_terms := [py "foo"] |}
    = Returned {| content := None;
                  embed := Some (str_join [LF]
                    [py "# foo > bar"; [LF]; py "[website](http://y)"]);
                  view := [] |}.
Proof.
  split; [split; vm_compute; reflexivity|].
  apply (@round_trip (ascii_runtime scenario_known) scenario_get scenario_get (py "foo"));
    vm_compute; reflexivity.
Defined.

(** C7 as stated fails when a bracket opens in the body and closes in the
    example: neither text holds a match, their concatenation holds one. *)
Lemma split_bracket_not_collected :
  ∃ msg,
    @render (ascii_runtime [])
      {| word := VStr (py "w"); definition := VStr (py "[a");
         example := VStr (py "b]"); permalink := VStr (py "http://x") |} []
    = Returned msg
    ∧ label <$> view msg = []
    ∧ @extract (ascii_runtime []) (py "[a" ++ py "b]") ∅ = [py "ab"].
Proof.
  eexists. split; [vm_compute; reflexivity|]. split; vm_compute; reflexivity.
Qed.

(** C8 as stated fails in two ways.  When the body holds another bracketed
    term there are two actions.  And a text can contain "[Bar]" without the
    scan finding the term "Bar": inside a bracket that is already open, the
    match runs from the first opening bracket, and no action is labelled
    "bar". *)
Lemma folded_reference_not_alone_not_always :
  (∃ msg,
     @render (ascii_runtime [])
       {| word := VStr (py "w"); definition := VStr (py "[Bar] [baz]");
          example := VStr (py "[bar]"); permalink := VStr (py "http://x") |} []
     = Returned msg
     ∧ label <$> view msg = [py "bar"; py "baz"])
  ∧ py "[x[Bar]" = py "[x" ++ py "[Bar]" ++ []
  ∧ py "[y[bar]" = py "[y" ++ py "[bar]" ++ []
  ∧ ∃ msg,
      @render (ascii_runtime [])
        {| word := VStr (py "w"); definition := VStr (py "[x[Bar]");
           example := VStr (py "[y[bar]"); permalink := VStr (py "http://x") |} []
      = Returned msg
      ∧ label <$> view msg = [py "x[bar"; py "y[bar"]
      ∧ filter (λ b, label b = py "bar") (view msg) = [].
Proof.
  split; [eexists; split; vm_compute; reflexivity|].
  split; [reflexivity|]. split; [reflexivity|].
  eexists. split; [vm_compute; reflexivity|]. split; vm_compute; reflexivity.
Qed.

Lemma folded_reference_once_witness :
  (has_term (py "Bar") (py "see [Bar] or [baz]") ∧ has_term (py "bar") (py "[bar]!"))
  ∧ (py "Bar" ∈ findall (py "see [Bar] or [baz]") ∧ py "bar" ∈ findall (py "[bar]!"))
  ∧ ∃ msg,
      @render (ascii_runtime [])
        {| word := VStr (py "foo"); definition := VStr (py "see [Bar] or [baz]");
           example := VStr (py "[bar]!"); permalink := VStr (py "http://x") |} [py "top"]
      = Returned msg
      ∧ filter (λ b, label b = py "bar") (view msg)
        = [UbanDictionaryButton (py "bar") ([py "top"] ++ [py "foo"])]
      ∧ (∀ g, g ∈ findall (py "see [Bar] or [baz]") ++ findall (py "[bar]!") →
           filter (λ b, label b = @lower (ascii_runtime []) g) (view msg)
           = [UbanDictionaryButton (@lower (ascii_runtime []) g) ([py "top"] ++ [py "foo"])])
      ∧ (∀ b, b ∈ view msg →
           ∃ g, g ∈ findall (py "see [Bar] or [baz]") ++ findall (py "[bar]!")
                ∧ b = UbanDictionaryButton (@lower (ascii_runtime []) g)
                        ([py "top"] ++ [py "foo"]))
      ∧ ((∀ g, g ∈ findall (py "see [Bar] or [baz]") ++ findall (py "[bar]!") →
               @lower (ascii_runtime []) g = py "bar")
         ↔ view msg = [UbanDictionaryButton (py "bar") ([py "top"] ++ [py "foo"])]).
Proof.
  assert (has_term (py "Bar") (py "see [Bar] or [baz]")) as HB.
  { exists (py "see "), (py " or [baz]"). split; reflexivity. }
  assert (has_term (py "bar") (py "[bar]!")) as Hb.
  { exists [], (py "!"). split; reflexivity. }
  split; [done|].
  apply (@folded_reference_once (ascii_runtime [])); done.
Defined.

Lemma reply_determined_witness :
  (@fetch_urban_dictionary_definition (ascii_runtime scenario_known) scenario_get (py "foo")
   = Returned (Some foo_record)
   ∧ @fetch_urban_dictionary_definition (ascii_runtime foo_known) foo_get (py "other")
     = Returned (Some foo_record))
  ∧ @send_urban_dictionary_definition (ascii_runtime scenario_known) scenario_get
      (py "foo") [py "top"]
    = @send_urban_dictionary_definition (ascii_runtime foo_known) foo_get
        (py "other") [py "top"].
Proof.
  split; [split; vm_compute; reflexivity|].
  apply (reply_determined_by_record_and_trail
           (ascii_runtime scenario_known) (ascii_runtime foo_known)
           scenario_get foo_get (py "foo") (py "other") foo_record [py "top"]);
    [intros; reflexivity | reflexivity | vm_compute; reflexivity..].
Defined.

(** C10 as stated fails for an empty pair inside a bracket that is already
    open: the match runs from the first opening bracket, and its group is not
    empty. *)
Lemma inner_empty_pair_not_captured :
  py "[x[]" = py "[x" ++ py "[]" ++ []
  ∧ ∃ msg,
      @render (ascii_runtime [])
        {| word := VStr (py "w"); definition := VStr (py "[x[]");
           example := VStr []; permalink := VStr (py "http://x") |} []
      = Returned msg
      ∧ label <$> view msg = [py "x["].
Proof. split; [reflexivity|]. eexists. split; vm_compute; reflexivity. Qed.

Lemma empty_pair_gives_empty_action_witness :
  (has_empty_pair (py "a [] b") ∨ has_empty_pair [])
  ∧ [] ∈ findall (py "a [] b") ++ findall []
  ∧ ∃ msg,
      @render (ascii_runtime [])
        {| word := VStr (py "foo"); definition := VStr (py "a [] b");
           example := VStr []; permalink := VStr (py "http://x") |} []
      = Returned msg
      ∧ filter (λ b, label b = []) (view msg)
        = [ {| label := []; term := []; previous_terms := [] ++ [py "foo"] |} ].
Proof.
  assert (has_empty_pair (py "a [] b")) as Hpair.
  { exists (py "a "), (py " b"). split; reflexivity. }
  split; [by left|].
  apply (@empty_pair_gives_empty_action (ascii_runtime [])). by left.
Defined.

(** * More properties of the flow *)

Lemma findall_bracketed_terms text :
  Forall (λ g, (RBRACK ∉ g) ∧ bracketed g text) (findall text).
Proof.
  remember (length text) as n eqn:Hn. revert text Hn.
  induction n as [n IH] using lt_wf_ind. intros [|c s] Hn.
  - rewrite findall_equation_1. constructor.
  - rewrite findall_cons. simpl in *. destruct (N.eqb_spec c LBRACK) as [->|_].
    + destruct (match_group s) as [[g rest]|] eqn:E.
      * pose proof (match_group_shorter _ _ _ E) as Hlt.
        apply match_group_elim in E as [-> Hg]. constructor.
        -- split; [done|]. by exists [], rest.
        -- eapply Forall_impl; [apply (IH (length rest)); [lia|done]|].
           intros g' [Hg' (pre & post & ->)]. split; [done|].
           exists (LBRACK :: g ++ RBRACK :: pre), post.
           simpl. by rewrite <-!app_assoc.
      * eapply Forall_impl; [apply (IH (length s)); [lia|done]|].
        intros g' [Hg' (pre & post & ->)]. split; [done|].
        by exists (LBRACK :: pre), post.
    + eapply Forall_impl; [apply (IH (length s)); [lia|done]|].
      intros g' [Hg' (pre & post & ->)]. split; [done|].
      by exists (c :: pre), post.
Qed.

Lemma scan_length st s :
  length (scan st s) ≤ length (filter (λ c, c = RBRACK) s).
Proof.
  revert st. induction s as [|c s IH]; intros st; simpl; [done|].
  destruct st as [g|].
  - destruct (N.eqb_spec c RBRACK) as [->|Hc].
    + rewrite filter_cons_True by done. simpl. specialize (IH None). lia.
    + rewrite filter_cons_False by done. apply IH.
  - destruct (decide (c = RBRACK)).
    + rewrite filter_cons_True by done. simpl.
      destruct (c =? LBRACK)%N; [specialize (IH (Some [])) | specialize (IH None)]; lia.
    + rewrite filter_cons_False by done. destruct (c =? LBRACK)%N; apply IH.
Qed.

Lemma fresh_terms_length seen l : length (fresh_terms seen l) ≤ length l.
Proof.
  revert seen. induction l as [|a l IH]; intros seen; simpl; [done|].
  destruct (decide (a ∈ seen)); simpl; [specialize (IH seen) | specialize (IH (seen ∪ {[a]}))]; lia.
Qed.

Section more_of_the_flow.
Context `{PyRuntime}.

(** X1.  Every follow-up action comes from a bracketed term of the body or
    of the example: its label and its target term are the same text, the
    lower-cased term, and the term holds no closing bracket. *)
Theorem actions_come_from_bracketed_terms (w body ex : str) (link : pyval)
    (trail : list str) :
  ∃ msg,
    render {| word := VStr w; definition := VStr body; example := VStr ex;
              permalink := link |} trail = Returned msg
    ∧ Forall (λ b, label b = term b
                   ∧ ∃ g, label b = lower g ∧ (RBRACK ∉ g)
                          ∧ (bracketed g body ∨ bracketed g ex))
             (view msg).
Proof.
  eexists. split; [apply render_str|]. simpl.
  apply Forall_fmap, Forall_forall. intros t Ht. simpl. split; [done|].
  apply fresh_terms_elem in Ht as [Ht _].
  apply list_elem_of_fmap in Ht as (g & -> & Hg). exists g. split; [done|].
  apply elem_of_app in Hg as [Hg|Hg].
  - pose proof (findall_bracketed_terms body) as Hall.
    rewrite Forall_forall in Hall. destruct (Hall g Hg). eauto.
  - pose proof (findall_bracketed_terms ex) as Hall.
    rewrite Forall_forall in Hall. destruct (Hall g Hg). eauto.
Qed.

(** X2.  A text in which no opening bracket or no closing bracket occurs
    holds no cross-reference; a definition whose body and example are such
    texts is rendered with no follow-up action. *)
Theorem no_brackets_no_actions (w body ex : str) (link : pyval) (trail : list str) :
  LBRACK ∉ body ∨ RBRACK ∉ body →
  LBRACK ∉ ex ∨ RBRACK ∉ ex →
  (∀ seen, extract body seen = [] ∧ extract ex seen = [])
  ∧ ∃ msg,
      render {| word := VStr w; definition := VStr body; example := VStr ex;
                permalink := link |} trail = Returned msg
      ∧ view msg = [].
Proof.
  intros Hbody Hex.
  assert (∀ s, LBRACK ∉ s ∨ RBRACK ∉ s → findall s = []) as Hnone.
  { intros s [Hs|Hs]; [by apply findall_no_open|].
    rewrite findall_scan. by apply scan_no_close. }
  split.
  - intros seen. by rewrite !extract_spec, !Hnone.
  - eexists. split; [apply render_str|]. simpl. by rewrite !Hnone.
Qed.

(** X3.  A reply never has more follow-up actions than the body and the
    example together have closing brackets. *)
Theorem actions_bounded_by_closing_brackets (w body ex : str) (link : pyval)
    (trail : list str) :
  ∃ msg,
    render {| word := VStr w; definition := VStr body; example := VStr ex;
              permalink := link |} trail = Returned msg
    ∧ length (view msg) ≤ length (filter (λ c, c = RBRACK) (body ++ ex)).
Proof.
  eexists. split; [apply render_str|]. simpl.
  rewrite length_fmap. etrans; [apply fresh_terms_length|].
  rewrite length_fmap, length_app, filter_app, length_app, !findall_scan.
  pose proof (scan_length None body). pose proof (scan_length None ex). lia.
Qed.

End more_of_the_flow.

Lemma no_brackets_no_actions_witness :
  (LBRACK ∉ py "plain ] text" ∨ RBRACK ∉ py "plain ] text")
  ∧ (LBRACK ∉ py "an [ example" ∨ RBRACK ∉ py "an [ example")
  ∧ (∀ seen, @extract (ascii_runtime []) (py "plain ] text") seen = []
             ∧ @extract (ascii_runtime []) (py "an [ example") seen = [])
  ∧ ∃ msg,
      @render (ascii_runtime [])
        {| word := VStr (py "foo"); definition := VStr (py "plain ] text");
           example := VStr (py "an [ example"); permalink := VStr (py "http://x") |} []
      = Returned msg
      ∧ view msg = [].
Proof.
  assert (LBRACK ∉ py "plain ] text") as H1 by compute_done.
  assert (RBRACK ∉ py "an [ example") as H2 by compute_done.
  split; [by left|]. split; [by right|].
  apply (@no_brackets_no_actions (ascii_runtime []) (py "foo") (py "plain ] text")
           (py "an [ example") (VStr (py "http://x")) []); [by left | by right].
Defined.

(** ** The text of a reply *)

Lemma replace_from_elem old new k s x :
  x ∈ replace_from old new k s → x ∈ new ∨ x ∈ s.
Proof.
  revert k. induction s as [|c s IH]; intros k; simpl; [by right|].
  destruct k as [|k].
  - destruct (startswith old (c :: s)).
    + intros [?|Hx]%elem_of_app; [by left|].
      destruct (IH _ Hx); [by left | right; by right].
    + intros [->|Hx]%elem_of_cons; [right; by left|].
      destruct (IH _ Hx); [by left | right; by right].
  - intros Hx. destruct (IH _ Hx); [by left | right; by right].
Qed.

Lemma replace_char_gone c new s :
  c ∉ new → c ∉ str_replace [c] new s.
Proof.
  intros Hnew. unfold str_replace. induction s as [|x s IH]; simpl.
  - apply not_elem_of_nil.
  - destruct (N.eqb_spec c x) as [->|Hne]; simpl.
    + rewrite elem_of_app. tauto.
    + rewrite elem_of_cons. tauto.
Qed.

Lemma splitlines_from_no_break cur l rest :
  Forall (λ c, is_linebreak c = false) l →
  splitlines_from cur (l ++ rest) = splitlines_from (cur ++ l) rest.
Proof.
  intros Hl. revert cur. induction Hl as [|c l Hc _ IH]; intros cur; simpl.
  - by rewrite app_nil_r.
  - rewrite Hc, IH. by rewrite <-app_assoc.
Qed.

Lemma splitlines_from_LF cur rest :
  splitlines_from cur (LF :: rest) = cur :: splitlines_from [] rest.
Proof. by destruct rest. Qed.

(** What is left to read after a line break. *)
Lemma splitlines_from_break cur c s :
  is_linebreak c = true →
  ∃ s', splitlines_from cur (c :: s) = cur :: splitlines_from [] s'
        ∧ length s' ≤ length s ∧ (∀ x, x ∈ s' → x ∈ s).
Proof.
  intros Hc. simpl. rewrite Hc. destruct s as [|d s].
  - by exists [].
  - destruct ((c =? CR)%N && (d =? LF)%N).
    + exists s. split_and!; [done|simpl; lia|]. intros x ?. by right.
    + by exists (d :: s).
Qed.

Lemma splitlines_from_lines cur s :
  Forall (λ c, is_linebreak c = false) cur →
  Forall (λ l, Forall (λ c, is_linebreak c = false) l
               ∧ ∀ x, x ∈ l → x ∈ cur ∨ x ∈ s)
         (splitlines_from cur s).
Proof.
  remember (length s) as n eqn:Hn. revert cur s Hn.
  induction n as [n IH] using lt_wf_ind. intros cur [|c s] Hn Hcur.
  - simpl. destruct cur; constructor; [|constructor]. split; [done|]. by left.
  - destruct (is_linebreak c) eqn:Hc.
    + destruct (splitlines_from_break cur c s Hc) as (s' & -> & Hlen & Hsub).
      constructor; [split; [done | by left]|].
      eapply Forall_impl; [apply (IH (length s')); [simpl in Hn; lia | done | constructor]|].
      intros l [Hl Hx]. split; [done|]. intros x Hxl.
      destruct (Hx x Hxl) as [Hnil|?]; [by apply elem_of_nil in Hnil|].
      right. right. by apply Hsub.
    + simpl. rewrite Hc.
      eapply Forall_impl;
        [apply (IH (length s)); [simpl in Hn; lia | done | by apply Forall_app_2; [|constructor]]|].
      intros l [Hl Hx]. split; [done|]. intros x Hxl.
      destruct (Hx x Hxl) as [Hcur'|?]; [|right; by right].
      apply elem_of_app in Hcur' as [?|Hxc]; [by left|].
      apply list_elem_of_singleton in Hxc as ->. right. by left.
Qed.

Lemma str_join_cons sep x items :
  items ≠ [] → str_join sep (x :: items) = x ++ sep ++ str_join sep items.
Proof. by destruct items. Qed.

Lemma str_join_snoc sep items y :
  items ≠ [] → str_join sep (items ++ [y]) = str_join sep items ++ sep ++ y.
Proof.
  induction items as [|x items IH]; [done|]. intros _.
  destruct items as [|x' items]; [done|].
  change ((x :: x' :: items) ++ [y]) with (x :: ((x' :: items) ++ [y])).
  rewrite str_join_cons by (simpl; congruence).
  rewrite IH by done. rewrite (str_join_cons sep x (x' :: items)) by done.
  by rewrite <-!app_assoc.
Qed.

Lemma str_join_elem sep items x :
  x ∈ str_join sep items → x ∈ sep ∨ ∃ l, l ∈ items ∧ x ∈ l.
Proof.
  induction items as [|l items IH]; [by intros ?%elem_of_nil|].
  destruct items as [|l' items].
  - intros Hx. right. exists l. split; [left | done].
  - rewrite str_join_cons by done.
    intros [Hx|[Hx|Hx]%elem_of_app]%elem_of_app.
    + right. exists l. split; [left | done].
    + by left.
    + destruct (IH Hx) as [?|(l0 & Hl0 & ?)]; [by left|].
      right. exists l0. split; [by right | done].
Qed.

(** Joining lines with a newline and splitting again gives the lines back,
    when none is empty and none holds a line break. *)
Lemma splitlines_str_join lines :
  Forall (λ l, l ≠ [] ∧ Forall (λ c, is_linebreak c = false) l) lines →
  splitlines (str_join [LF] lines) = lines.
Proof.
  unfold splitlines. induction 1 as [|l lines [Hne Hl] Hlines IH]; [done|].
  destruct lines as [|l' lines].
  - simpl. rewrite <-(app_nil_r l) at 1.
    rewrite splitlines_from_no_break by done. simpl. by destruct l.
  - rewrite str_join_cons by done.
    rewrite splitlines_from_no_break by done. simpl app at 1.
    change ([LF] ++ ?s) with (LF :: s).
    by rewrite splitlines_from_LF, IH.
Qed.

Lemma clean_brackets_gone (text : str) :
  (LBRACK ∉ clean text) ∧ (RBRACK ∉ clean text).
Proof.
  unfold clean.
  set (t1 := str_replace (py "\r\n") [LF] text).
  set (t2 := str_replace [LBRACK] (py "__") t1).
  set (t3 := str_replace [RBRACK] (py "__") t2).
  assert ((LBRACK ∉ t3) ∧ (RBRACK ∉ t3)) as [Hl Hr].
  { split.
    - intros [Hx|Hx]%replace_from_elem; [revert Hx; compute_done|].
      revert Hx. apply replace_char_gone. compute_done.
    - apply replace_char_gone. compute_done. }
  assert (∀ x, x ∈ str_join [LF] (filter (λ l, 0 < length (strip l)) (splitlines t3)) →
               x = LF ∨ x ∈ t3) as Hsub.
  { intros x [Hx%list_elem_of_singleton|(l & Hl0 & Hx)]%str_join_elem; [by left|].
    apply list_elem_of_filter in Hl0 as [_ Hl0].
    pose proof (splitlines_from_lines [] t3 (Forall_nil_2 _)) as Hall.
    rewrite Forall_forall in Hall. destruct (Hall l Hl0) as [_ Hin].
    destruct (Hin x Hx) as [Hnil|?]; [by apply elem_of_nil in Hnil|]. by right. }
  split; intros [?|?]%Hsub; done.
Qed.

(** The characters of a line of a text are characters of the text. *)
Lemma splitlines_elem s l x : l ∈ splitlines s → x ∈ l → x ∈ s.
Proof.
  intros Hl Hx.
  pose proof (splitlines_from_lines [] s (Forall_nil_2 _)) as Hall.
  rewrite Forall_forall in Hall. destruct (Hall l Hl) as [_ Hin].
  destruct (Hin x Hx) as [Hnil|?]; [by apply elem_of_nil in Hnil | done].
Qed.

(** X4.  The text [clean] returns holds neither an opening nor a closing
    bracket, and neither does a header line ("### " and a line of it) or an
    example line (a line of it between two "*") made of its lines. *)
Theorem clean_has_no_bracket (text : str) :
  (LBRACK ∉ clean text) ∧ (RBRACK ∉ clean text)
  ∧ Forall (λ l, ((LBRACK ∉ py "### " ++ l) ∧ (RBRACK ∉ py "### " ++ l))
                 ∧ ((LBRACK ∉ py "*" ++ l ++ py "*") ∧ (RBRACK ∉ py "*" ++ l ++ py "*")))
      (splitlines (clean text)).
Proof.
  destruct (clean_brackets_gone text) as [Hl Hr].
  split; [done|]. split; [done|].
  apply Forall_forall. intros l Hin.
  assert ((LBRACK ∉ l) ∧ (RBRACK ∉ l)) as [Hll Hrl].
  { split; intros Hx; [apply Hl | apply Hr]; by eapply splitlines_elem. }
  rewrite !elem_of_app. split_and!; intros Hx.
  - destruct Hx as [Hx|Hx]; [revert Hx; compute_done | done].
  - destruct Hx as [Hx|Hx]; [revert Hx; compute_done | done].
  - destruct Hx as [Hx|[Hx|Hx]]; [revert Hx; compute_done | done | revert Hx; compute_done].
  - destruct Hx as [Hx|[Hx|Hx]]; [revert Hx; compute_done | done | revert Hx; compute_done].
Qed.

(** X5.  Splitting a cleaned text into lines gives exactly the lines of the
    escaped text that are not blank, in their order: no line is lost, merged
    or split by the join, and every line kept has a visible character. *)
Theorem clean_keeps_the_visible_lines (text : str) :
  splitlines (clean text)
  = filter (λ l, 0 < length (strip l))
      (splitlines
         (str_replace [RBRACK] (py "__")
            (str_replace [LBRACK] (py "__")
               (str_replace (py "\r\n") [LF] text))))
  ∧ Forall (λ l, strip l ≠ []) (splitlines (clean text)).
Proof.
  unfold clean.
  set (t3 := str_replace [RBRACK] _ _).
  assert (splitlines (str_join [LF] (filter (λ l, 0 < length (strip l)) (splitlines t3)))
          = filter (λ l, 0 < length (strip l)) (splitlines t3)) as ->.
  { apply splitlines_str_join. apply Forall_forall. intros l [Hvis Hl]%list_elem_of_filter.
    split.
    - intros ->. simpl in Hvis. lia.
    - pose proof (splitlines_from_lines [] t3 (Forall_nil_2 _)) as Hall.
      rewrite Forall_forall in Hall. by destruct (Hall l Hl). }
  split; [done|]. apply Forall_forall. intros l [Hvis _]%list_elem_of_filter.
  intros E. rewrite E in Hvis. simpl in Hvis. lia.
Qed.

Lemma str_join_trail sep (trail : list (list N)) (w : list N) :
  str_join sep (trail ++ [w]) = (trail ≫= λ t, t ++ sep) ++ w.
Proof.
  induction trail as [|t trail IH]; [done|].
  change ((t :: trail) ++ [w]) with (t :: (trail ++ [w])).
  rewrite str_join_cons by (by destruct trail). rewrite IH.
  change ((t :: trail) ≫= λ t, t ++ sep) with ((t ++ sep) ++ (trail ≫= λ t, t ++ sep)).
  by rewrite <-!app_assoc.
Qed.

Lemma str_join_frame sep (first : list N) middle (last : list N) :
  middle ≠ [] →
  str_join sep ([first] ++ middle ++ [last])
  = first ++ sep ++ str_join sep middle ++ sep ++ last.
Proof.
  intros Hm. change ([first] ++ middle ++ [last]) with (first :: (middle ++ [last])).
  rewrite str_join_cons by (by destruct middle).
  by rewrite str_join_snoc.
Qed.

Section reply_text.
Context `{PyRuntime}.

Lemma description_of_layout w body ex link trail :
  ∃ middle,
    description_of w body ex link trail
    = py "# " ++ (trail ≫= λ t, t ++ py " > ") ++ w ++ [LF] ++ middle ++ [LF]
      ++ py "[website](" ++ format_value link ++ py ")".
Proof.
  unfold description_of.
  set (title := py "# " ++ str_join (py " > ") (trail ++ [w])).
  set (headers := (λ l, py "### " ++ l) <$> splitlines (clean body)).
  set (examples := (λ l, py "*" ++ l ++ py "*") <$> splitlines (clean ex)).
  set (last := py "[website](" ++ format_value link ++ py ")").
  exists (str_join [LF] (headers ++ [[LF]] ++ examples)).
  assert ([title] ++ headers ++ [[LF]] ++ examples ++ [last]
          = [title] ++ (headers ++ [[LF]] ++ examples) ++ [last]) as ->.
  { by rewrite <-!app_assoc. }
  rewrite str_join_frame by (by destruct headers).
  unfold title. rewrite str_join_trail. by rewrite <-!app_assoc.
Qed.

(** The lines of a cleaned text are the visible lines of the text. *)
Lemma splitlines_clean (text : str) : splitlines (clean text) = visible_lines text.
Proof.
  unfold clean, visible_lines.
  set (t3 := str_replace [RBRACK] _ _).
  apply splitlines_str_join. apply Forall_forall. intros l [Hvis Hl]%list_elem_of_filter.
  split.
  - intros ->. simpl in Hvis. lia.
  - pose proof (splitlines_from_lines [] t3 (Forall_nil_2 _)) as Hall.
    rewrite Forall_forall in Hall. by destruct (Hall l Hl).
Qed.

Lemma description_of_frame w body ex link trail :
  description_of w body ex link trail
  = py "# " ++ (trail ≫= λ t, t ++ py " > ") ++ w ++ [LF]
    ++ str_join [LF]
         (((λ l, py "### " ++ l) <$> visible_lines body)
          ++ [[LF]]
          ++ ((λ l, py "*" ++ l ++ py "*") <$> visible_lines ex))
    ++ [LF] ++ py "[website](" ++ format_value link ++ py ")".
Proof.
  unfold description_of. rewrite !splitlines_clean.
  set (title := py "# " ++ str_join (py " > ") (trail ++ [w])).
  set (headers := (λ l, py "### " ++ l) <$> visible_lines body).
  set (examples := (λ l, py "*" ++ l ++ py "*") <$> visible_lines ex).
  set (last := py "[website](" ++ format_value link ++ py ")").
  assert ([title] ++ headers ++ [[LF]] ++ examples ++ [last]
          = [title] ++ (headers ++ [[LF]] ++ examples) ++ [last]) as ->.
  { by rewrite <-!app_assoc. }
  rewrite str_join_frame by (by destruct headers).
  unfold title. rewrite str_join_trail. by rewrite <-!app_assoc.
Qed.

(** X6.  The text of a reply is, in this order: the title line -- the mark
    "# ", every term of the incoming trail followed by " > ", then the
    headword --; one header line, "### " and the line, for every visible line
    of the definition; a line that holds a newline alone; one example line,
    the line between two "*", for every visible line of the example; the
    link line.  One newline stands between two lines and none at the end.
    The visible lines of a text are its lines that are not blank, the line
    ends "\r\n" read as one newline and each bracket replaced by "__". *)
Theorem reply_text_layout (w body ex : str) (link : pyval) (trail : list str) :
  ∃ msg,
    render {| word := VStr w; definition := VStr body; example := VStr ex;
              permalink := link |} trail = Returned msg
    ∧ embed msg
      = Some (py "# " ++ (trail ≫= λ t, t ++ py " > ") ++ w ++ [LF]
              ++ str_join [LF]
                   (((λ l, py "### " ++ l) <$> visible_lines body)
                    ++ [[LF]]
                    ++ ((λ l, py "*" ++ l ++ py "*") <$> visible_lines ex))
              ++ [LF] ++ py "[website](" ++ format_value link ++ py ")").
Proof.
  eexists. split; [apply render_str|]. simpl. by rewrite description_of_frame.
Qed.

Lemma render_button d trail msg w b :
  render d trail = Returned msg → word d = VStr w → b ∈ view msg →
  previous_terms b = trail ++ [w] ∧ label b = term b.
Proof.
  intros Hr Hw Hb. destruct (render_Returned _ _ _ Hr) as (w' & body & ex & Hd).
  rewrite Hd in Hr, Hw. simpl in Hw. injection Hw as ->.
  rewrite render_str in Hr. injection Hr as <-. simpl in Hb.
  apply list_elem_of_fmap in Hb as (t & -> & _). done.
Qed.

Lemma send_Found get term trail d :
  fetch_urban_dictionary_definition get term = Returned (Some d) →
  send_urban_dictionary_definition get term trail = render d trail.
Proof. intros Hf. unfold send_urban_dictionary_definition. by rewrite Hf. Qed.

(** X7.  While browsing, the trail a button carries is the path walked: the
    headwords of the definitions shown so far, the oldest first, whatever the
    server answered on the way.  The reply a click on the button brings is
    titled with that path followed by the new headword. *)
Theorem navigation_trail_is_the_path (path : list str) (b : Button) :
  navigation path b →
  previous_terms b = path
  ∧ ∀ get d w msg,
      fetch_urban_dictionary_definition get (term b) = Returned (Some d) →
      word d = VStr w →
      callback get b = Returned msg →
      ∃ rest, embed msg
              = Some (py "# " ++ str_join (py " > ") (path ++ [w]) ++ LF :: rest).
Proof.
  intros Hnav.
  assert (previous_terms b = path) as Hpath.
  { induction Hnav as [get term d w msg b Hf Hw Hu Hb
                      |get path b0 d w msg b Hnav IH Hf Hw Hc Hb].
    - unfold urban in Hu. rewrite (send_Found _ _ _ _ Hf) in Hu.
      by destruct (render_button _ _ _ _ _ Hu Hw Hb).
    - unfold callback in Hc. rewrite (send_Found _ _ _ _ Hf) in Hc.
      destruct (render_button _ _ _ _ _ Hc Hw Hb) as [-> _]. by rewrite IH. }
  split; [done|]. intros get d w msg Hf Hw Hc.
  unfold callback in Hc. rewrite (send_Found _ _ _ _ Hf), Hpath in Hc.
  destruct (render_Returned _ _ _ Hc) as (w' & body & ex & Hd).
  rewrite Hd in Hc, Hw. simpl in Hw. injection Hw as ->.
  rewrite render_str in Hc. injection Hc as <-. simpl.
  destruct (description_of_layout w body ex (permalink d) path) as [middle ->].
  rewrite str_join_trail. eexists. by rewrite <-!app_assoc.
Qed.

End reply_text.

Lemma navigation_trail_is_the_path_witness :
  @navigation (ascii_runtime scenario_known) [py "foo"]
    {| label := py "bar"; term := py "bar"; previous_terms := [py "foo"] |}
  ∧ previous_terms {| label := py "bar"; term := py "bar";
                      previous_terms := [py "foo"] |} = [py "foo"].
Proof.
  assert (@navigation (ascii_runtime scenario_known) [py "foo"]
            {| label := py "bar"; term := py "bar"; previous_terms := [py "foo"] |})
    as Hnav.
  { eapply (@navigation_urban (ascii_runtime scenario_known) scenario_get (py "foo")
              foo_record (py "foo")).
    - vm_compute. reflexivity.
    - reflexivity.
    - vm_compute. reflexivity.
    - simpl. left. }
  split; [done|].
  apply (@navigation_trail_is_the_path (ascii_runtime scenario_known) _ _ Hnav).
Defined.

(** * The other commands *)

(** ** [mock] *)

Ltac ascii_cases :=
  unfold ascii_isalpha, ascii_upper, ascii_lower in *;
  repeat match goal with
         | |- context [(?a <=? ?b)%N] => destruct (N.leb_spec a b)
         | H : context [(?a <=? ?b)%N] |- _ => destruct (N.leb_spec a b)
         end;
  simpl in *; try done; try lia.

Lemma ascii_isalpha_upper c : ascii_isalpha c = true → ascii_isalpha (ascii_upper c) = true.
Proof. ascii_cases. Qed.

Lemma ascii_isalpha_lower c : ascii_isalpha c = true → ascii_isalpha (ascii_lower c) = true.
Proof. ascii_cases. Qed.

Lemma ascii_upper_upper c : ascii_upper (ascii_upper c) = ascii_upper c.
Proof. ascii_cases. Qed.

Lemma ascii_lower_lower c : ascii_lower (ascii_lower c) = ascii_lower c.
Proof. ascii_cases. Qed.

Lemma ascii_lower_upper c : ascii_lower (ascii_upper c) = ascii_lower c.
Proof. ascii_cases. Qed.

Lemma ascii_lower_other c : ascii_isalpha c = false → ascii_lower c = c.
Proof. ascii_cases. Qed.

Lemma ascii_upper_below c : (c < 128)%N → (ascii_upper c < 128)%N.
Proof. ascii_cases. Qed.

Lemma ascii_lower_below c : (c < 128)%N → (ascii_lower c < 128)%N.
Proof. ascii_cases. Qed.

Lemma str_join_empty_snoc (items : list (list N)) (x : list N) :
  str_join [] (items ++ [x]) = str_join [] items ++ x.
Proof.
  destruct items as [|y items]; [done|].
  by rewrite str_join_snoc.
Qed.

Lemma alternate_case_ascii u s : is_ascii s → is_ascii (alternate_case u s).
Proof.
  intros Hs. revert u. induction Hs as [|c s Hc _ IH]; intros u; simpl; [constructor|].
  destruct (ascii_isalpha c); constructor; try apply IH; try done.
  destruct u; [by apply ascii_upper_below | by apply ascii_lower_below].
Qed.

Lemma alternate_case_again u s : alternate_case u (alternate_case u s) = alternate_case u s.
Proof.
  revert u. induction s as [|c s IH]; intros u; simpl; [done|].
  destruct (ascii_isalpha c) eqn:Hc; simpl.
  - destruct u.
    + by rewrite ascii_isalpha_upper, ascii_upper_upper, IH.
    + by rewrite ascii_isalpha_lower, ascii_lower_lower, IH.
  - by rewrite Hc, IH.
Qed.

Lemma alternate_case_lower u s : ascii_lower <$> alternate_case u s = ascii_lower <$> s.
Proof.
  revert u. induction s as [|c s IH]; intros u; [done|]. simpl.
  destruct (ascii_isalpha c); rewrite !fmap_cons, IH; [|done].
  destruct u; by rewrite ?ascii_lower_upper, ?ascii_lower_lower.
Qed.

Lemma alternate_case_letters u s k c :
  filter (λ c, ascii_isalpha c = true) (alternate_case u s) !! k = Some c →
  (if xorb u (Nat.odd k) then ascii_upper c else ascii_lower c) = c.
Proof.
  revert u k. induction s as [|a s IH]; intros u k; simpl; [done|].
  destruct (ascii_isalpha a) eqn:Ha.
  - rewrite filter_cons_True
      by (destruct u; [by apply ascii_isalpha_upper | by apply ascii_isalpha_lower]).
    destruct k as [|k].
    + simpl. intros [= <-]. rewrite xorb_false_r.
      destruct u; [apply ascii_upper_upper | apply ascii_lower_lower].
    + simpl lookup. intros Hk. specialize (IH _ _ Hk).
      rewrite Nat.odd_succ, <-Nat.negb_odd.
      by destruct u, (Nat.odd k).
  - rewrite filter_cons_False by congruence. apply IH.
Qed.

Section mocking.
Context `{PyChars}.

Lemma mock_loop_ascii content u mocked :
  is_ascii content →
  str_join [] (mock_loop content u mocked)
  = str_join [] mocked ++ alternate_case u content.
Proof.
  intros Hs. revert u mocked.
  induction Hs as [|c s Hc _ IH]; intros u mocked; simpl.
  - by rewrite app_nil_r.
  - rewrite char_isalpha_ascii by done. destruct (ascii_isalpha c); simpl.
    + rewrite IH, str_join_empty_snoc.
      destruct u; rewrite ?char_upper_ascii, ?char_lower_ascii by done;
        by rewrite <-app_assoc.
    + rewrite IH, str_join_empty_snoc. by rewrite <-app_assoc.
Qed.

Lemma mock_ascii content : is_ascii content → mock content = alternate_case false content.
Proof. intros Hs. unfold mock. by rewrite mock_loop_ascii. Qed.

(** X8.  Mocking an ASCII text changes nothing but the case of its letters:
    the reply has the length of the text and is equal to it when case is
    ignored, so every character that is not a letter stays where it was. *)
Theorem mock_changes_case_only (content : str) :
  is_ascii content →
  length (mock content) = length content
  ∧ ascii_lower <$> mock content = ascii_lower <$> content
  ∧ ∀ i c, content !! i = Some c → ascii_isalpha c = false →
           mock content !! i = Some c.
Proof.
  intros Hs. rewrite mock_ascii by done.
  pose proof (alternate_case_lower false content) as Hlow.
  assert (length (alternate_case false content) = length content) as Hlen.
  { by rewrite <-(length_fmap ascii_lower), Hlow, length_fmap. }
  split_and!; [done..|]. intros i c Hi Hc.
  assert ((ascii_lower <$> alternate_case false content) !! i = Some (ascii_lower c)) as Hl.
  { rewrite Hlow, list_lookup_fmap, Hi. done. }
  rewrite list_lookup_fmap in Hl.
  destruct (alternate_case false content !! i) as [c'|] eqn:Hc'; [|done].
  simpl in Hl. injection Hl as Hl. f_equal.
  revert Hl Hc. clear. ascii_cases.
Qed.

(** X9.  In the reply to an ASCII text the letters alternate, whatever
    stands between them: the first letter is lower-case, the second
    upper-case, and so on. *)
Theorem mock_alternates_letters (content : str) (k : nat) (c : N) :
  is_ascii content →
  filter (λ c, ascii_isalpha c = true) (mock content) !! k = Some c →
  (if Nat.even k then ascii_lower c else ascii_upper c) = c.
Proof.
  intros Hs. rewrite mock_ascii by done. intros Hk.
  apply alternate_case_letters in Hk. simpl in Hk.
  rewrite <-Nat.negb_odd. by destruct (Nat.odd k).
Qed.

(** X10.  Mocking an ASCII text twice gives what mocking it once gives. *)
Theorem mock_twice (content : str) :
  is_ascii content → mock (mock content) = mock content.
Proof.
  intros Hs. rewrite (mock_ascii content) by done.
  rewrite mock_ascii by (by apply alternate_case_ascii).
  apply alternate_case_again.
Qed.

End mocking.

Lemma mock_changes_case_only_witness :
  is_ascii (py "Hello, World 42")
  ∧ @mock ascii_chars (py "Hello, World 42") = py "hElLo, WoRlD 42"
  ∧ length (@mock ascii_chars (py "Hello, World 42")) = length (py "Hello, World 42").
Proof.
  split; [compute_done|]. split; [reflexivity|].
  apply (@mock_changes_case_only ascii_chars (py "Hello, World 42")). compute_done.
Defined.

Lemma mock_alternates_letters_witness :
  is_ascii (py "a-b c")
  ∧ filter (λ c, ascii_isalpha c = true) (@mock ascii_chars (py "a-b c")) !! 1 = Some 66%N
  ∧ (if Nat.even 1 then ascii_lower 66 else ascii_upper 66) = 66%N.
Proof.
  split; [compute_done|]. split; [reflexivity|].
  apply (@mock_alternates_letters ascii_chars (py "a-b c") 1 66%N);
    [compute_done | reflexivity].
Defined.

Lemma mock_twice_witness :
  is_ascii (py "Hello, World 42")
  ∧ @mock ascii_chars (@mock ascii_chars (py "Hello, World 42"))
    = @mock ascii_chars (py "Hello, World 42").
Proof.
  split; [compute_done|].
  apply (@mock_twice ascii_chars (py "Hello, World 42")). compute_done.
Defined.

(** ** [fish_look] *)

Lemma length_str_repeat s n :
  Z.of_nat (length (str_repeat s n)) = (Z.max 0 n * Z.of_nat (length s))%Z.
Proof.
  unfold str_repeat.
  assert (∀ k, length (mjoin (replicate k s)) = k * length s) as Hk.
  { induction k as [|k IH]; [done|]. simpl. rewrite length_app, IH. lia. }
  rewrite Hk. lia.
Qed.

Lemma outcome_bind_Returned_l {A B} (a : A) (f : A → outcome B) :
  Returned a ≫= f = f a.
Proof. reflexivity. Qed.

Lemma outcome_bind_Raised_l {A B} (f : A → outcome B) : Raised ≫= f = Raised.
Proof. reflexivity. Qed.

Lemma fish_length n (thing : str) :
  Z.of_nat (length (py "<:fish1:854133518204665876>"
                    ++ str_repeat (py "<:fish2:854133921473495040>") n
                    ++ py "<:fish3:854133518083162112>" ++ strip thing))
  = (54 + 27 * Z.max 0 n + Z.of_nat (length (strip thing)))%Z.
Proof.
  rewrite !length_app, !Nat2Z.inj_add, length_str_repeat.
  change (Z.of_nat (length (py "<:fish1:854133518204665876>"))) with 27%Z.
  change (Z.of_nat (length (py "<:fish2:854133921473495040>"))) with 27%Z.
  change (Z.of_nat (length (py "<:fish3:854133518083162112>"))) with 27%Z.
  lia.
Qed.

(** What [fish_look] does, by the size of the fish. *)
Lemma fish_look_cases (capacity : nat) (n : Z) (thing : str) :
  match fish_look capacity n thing with
  | Raised =>
      (Z.of_nat capacity < 54 + 27 * Z.max 0 n + Z.of_nat (length (strip thing)))%Z
  | Returned r =>
      (54 + 27 * Z.max 0 n + Z.of_nat (length (strip thing)) ≤ Z.of_nat capacity)%Z
      ∧ (Z.of_nat (length (reply_content r)) ≤ 2000)%Z
      ∧ if decide (54 + 27 * Z.max 0 n + Z.of_nat (length (strip thing)) ≤ 2000)%Z
        then r = {| reply_content :=
                      py "<:fish1:854133518204665876>"
                      ++ str_repeat (py "<:fish2:854133921473495040>") n
                      ++ py "<:fish3:854133518083162112>" ++ strip thing;
                    reply_ephemeral := false |}
        else r = {| reply_content :=
                      py "Woah. Discord can't handle that much fish. Try a smaller number.";
                    reply_ephemeral := true |}
  end.
Proof.
  unfold fish_look, allocate.
  pose proof (length_str_repeat (py "<:fish2:854133921473495040>") n) as Hneck.
  change (Z.of_nat (length (py "<:fish2:854133921473495040>"))) with 27%Z in Hneck.
  pose proof (fish_length n thing) as Hlen.
  set (neck := str_repeat _ n) in *.
  unfold mbind, outcome_bind.
  destruct (decide (length neck ≤ capacity)) as [Hfit|Hfit]; cbv beta iota; [|lia].
  set (message := _ ++ neck ++ _ ++ strip thing) in *.
  destruct (decide (length message ≤ capacity)) as [Hfit'|Hfit']; cbv beta iota; [|lia].
  destruct (decide (2000 < Z.of_nat (length message))%Z) as [Hbig|Hsmall].
  - split; [lia|]. split; [by vm_compute|].
    destruct (decide (_ ≤ 2000)%Z); [lia|done].
  - split; [lia|]. split; [cbn [reply_content]; lia|].
    destruct (decide (_ ≤ 2000)%Z); [done|lia].
Qed.

(** X11.  [fish_look] never sends more than 2000 characters.  It raises only
    when the fish does not fit in memory; otherwise it sends the whole fish,
    with as many neck pieces as asked for (none for a negative number), when
    the fish has at most 2000 characters, and the warning, to the caller
    alone, when it has more. *)
Theorem fish_look_outcomes (capacity : nat) (n : Z) (thing : str) :
  match fish_look capacity n thing with
  | Raised =>
      (Z.of_nat capacity < 54 + 27 * Z.max 0 n + Z.of_nat (length (strip thing)))%Z
  | Returned r =>
      (54 + 27 * Z.max 0 n + Z.of_nat (length (strip thing)) ≤ Z.of_nat capacity)%Z
      ∧ (Z.of_nat (length (reply_content r)) ≤ 2000)%Z
      ∧ if decide (54 + 27 * Z.max 0 n + Z.of_nat (length (strip thing)) ≤ 2000)%Z
        then r = {| reply_content :=
                      py "<:fish1:854133518204665876>"
                      ++ str_repeat (py "<:fish2:854133921473495040>") n
                      ++ py "<:fish3:854133518083162112>" ++ strip thing;
                    reply_ephemeral := false |}
        else r = {| reply_content :=
                      py "Woah. Discord can't handle that much fish. Try a smaller number.";
                    reply_ephemeral := true |}
  end.
Proof. apply fish_look_cases. Qed.

(** X12.  With nothing to look at, a fish of up to 72 neck pieces is sent and
    a longer one is refused with the warning (as long as it fits in
    memory). *)
Theorem fish_look_longest_fish (capacity : nat) (n : Z) (thing : str) :
  strip thing = [] →
  (54 + 27 * Z.max 0 n ≤ Z.of_nat capacity)%Z →
  fish_look capacity n thing
  = Returned (if decide (n ≤ 72)%Z
              then {| reply_content :=
                        py "<:fish1:854133518204665876>"
                        ++ str_repeat (py "<:fish2:854133921473495040>") n
                        ++ py "<:fish3:854133518083162112>";
                      reply_ephemeral := false |}
              else {| reply_content :=
                        py "Woah. Discord can't handle that much fish. Try a smaller number.";
                      reply_ephemeral := true |}).
Proof.
  intros Hthing Hfit. pose proof (fish_look_cases capacity n thing) as Hout.
  rewrite Hthing in Hout. change (Z.of_nat (length [])) with 0%Z in Hout.
  rewrite app_nil_r in Hout.
  destruct (fish_look capacity n thing) as [r|]; [|lia].
  destruct Hout as (_ & _ & Hr). f_equal.
  destruct (decide (n ≤ 72)%Z), (decide (_ ≤ 2000)%Z); try done; lia.
Qed.

Lemma fish_look_longest_fish_witness :
  (strip (py "  ") = [] ∧ (54 + 27 * Z.max 0 73 ≤ Z.of_nat 2100)%Z)
  ∧ fish_look 2100 73 (py "  ")
    = Returned {| reply_content :=
                    py "Woah. Discord can't handle that much fish. Try a smaller number.";
                  reply_ephemeral := true |}.
Proof.
  split; [split; [reflexivity | lia]|].
  apply (fish_look_longest_fish 2100 73 (py "  ")); [reflexivity | lia].
Defined.

(** ** The age shown by [fake_person] *)

(** X13.  The age is the number of anniversaries of the birthday that have
    come: the n-th anniversary is on or before today exactly when n is at
    most the age.  So the age goes up on the birthday itself, and it is
    negative for a birthday in a later year. *)
Theorem fake_person_age_counts_anniversaries (today bday : date) (n : Z) :
  date_le (anniversary bday n) today ↔ (n ≤ fake_person_age today bday)%Z.
Proof.
  unfold date_le, anniversary, fake_person_age, pair_ltb. simpl.
  destruct (Z.ltb_spec (month today) (month bday)); simpl; [lia|].
  destruct (Z.eqb_spec (month today) (month bday)); simpl; [|lia].
  destruct (Z.ltb_spec (day today) (day bday)); lia.
Qed.

(** ** [inspect_emoji] *)

Section emoji_properties.
Context `{PyDigits}.

Lemma take_digits_ascii digits rest :
  is_ascii_digits digits →
  (∀ c rest', rest = c :: rest' → char_isdecimal c = false) →
  take_digits (digits ++ rest) = (digits, rest).
Proof.
  intros Hd Hrest. induction Hd as [|c ds [Hlo Hhi] _ IH]; simpl.
  - destruct rest as [|c rest']; [done|]. simpl. by rewrite (Hrest c rest').
  - rewrite char_isdecimal_ascii by lia. rewrite IH.
    destruct (N.leb_spec 48 c), (N.leb_spec c 57); simpl; [done|lia..].
Qed.

Lemma digits_then_close_ascii digits rest :
  is_ascii_digits digits → digits ≠ [] →
  digits_then_close (digits ++ 62%N :: rest) = Some digits.
Proof.
  intros Hd Hne. unfold digits_then_close. rewrite take_digits_ascii; [|done|].
  - destruct digits as [|d ds]; [congruence | reflexivity].
  - intros c rest' [= <- _]. by rewrite char_isdecimal_ascii.
Qed.

Lemma emoji_tail_no_colon s :
  (58%N ∉ s) → emoji_tail s = None.
Proof.
  induction s as [|c s IH]; [done|]. intros [Hc Hs]%not_elem_of_cons. simpl.
  destruct (c =? LF)%N; [done|]. rewrite IH by done.
  destruct (N.eqb_spec c 58); [congruence|done].
Qed.

Lemma emoji_tail_mention name digits :
  (LF ∉ name) → is_ascii_digits digits → digits ≠ [] →
  emoji_tail (name ++ 58%N :: digits ++ [62%N]) = Some digits.
Proof.
  intros Hname Hd Hne. induction name as [|c name IH]; simpl.
  - rewrite emoji_tail_no_colon.
    + by apply digits_then_close_ascii.
    + intros [Hin|Hin]%elem_of_app.
      * unfold is_ascii_digits in Hd. rewrite Forall_forall in Hd.
        destruct (Hd _ Hin). lia.
      * by apply list_elem_of_singleton in Hin.
  - apply not_elem_of_cons in Hname as [Hc Hname].
    destruct (N.eqb_spec c LF); [done|]. by rewrite IH.
Qed.

Lemma int_of_ascii_digits digits :
  is_ascii_digits digits →
  (∀ limit, int_max_str_digits = Some limit → length digits ≤ limit) →
  int_of_digits digits = Returned (decimal digits).
Proof.
  intros Hd Hlimit.
  assert (∀ acc, foldl (λ acc c, 10 * acc + char_decimal c)%Z acc digits
                 = foldl (λ acc c, 10 * acc + (Z.of_N c - 48))%Z acc digits) as Hfold.
  { clear Hlimit. induction Hd as [|c ds [Hlo Hhi] _ IH]; intros acc; simpl; [done|].
    by rewrite char_decimal_ascii, IH. }
  unfold int_of_digits, decimal. destruct int_max_str_digits as [limit|].
  - destruct (decide (limit < length digits)) as [Hover|_].
    + specialize (Hlimit limit eq_refl). lia.
    + by rewrite Hfold.
  - by rewrite Hfold.
Qed.

Variable get_emoji : Z → option Emoji.

(** X14.  A mention of a custom emoji -- an opening angle bracket, an "a"
    when the emoji is animated, a colon, the name, a colon, the id in ASCII
    digits, a closing angle bracket -- with or without blanks around it, is
    read back to its id: the emoji with that number is looked up, and the
    reply shows it, or says that no emoji has that id.  The name may hold
    anything but a newline. *)
Theorem inspect_emoji_reads_mention (emoji name digits : str) (animated : bool) :
  strip emoji
  = py "<" ++ (if animated then py "a" else []) ++ py ":" ++ name ++ py ":"
    ++ digits ++ py ">" →
  (LF ∉ name) →
  is_ascii_digits digits → digits ≠ [] →
  (∀ limit, int_max_str_digits = Some limit → length digits ≤ limit) →
  inspect_emoji get_emoji emoji
  = Returned
      match get_emoji (decimal digits) with
      | Some the_emoji =>
          ReplyEmbed (emoji_name the_emoji)
            [ (py "created at", emoji_created_at the_emoji);
              (py "url", emoji_url the_emoji) ]
      | None => ReplyText (py "Unable to find emoji with id `" ++ digits ++ py "`.")
      end.
Proof.
  intros Hstrip Hname Hd Hne Hlimit. unfold inspect_emoji. rewrite Hstrip.
  assert (emoji_pattern (py "<" ++ (if animated then py "a" else []) ++ py ":"
                         ++ name ++ py ":" ++ digits ++ py ">") = Some digits) as ->.
  { pose proof (emoji_tail_mention name digits Hname Hd Hne) as Htail.
    destruct animated; exact Htail. }
  rewrite int_of_ascii_digits by done.
  rewrite outcome_bind_Returned_l.
  by destruct (get_emoji (decimal digits)).
Qed.

(** X15.  A text that, blanks removed at both ends, does not start with an
    opening angle bracket is refused: the reply quotes the text as it was
    typed. *)
Theorem inspect_emoji_refuses_other_text (emoji : str) :
  head (strip emoji) ≠ Some 60%N →
  inspect_emoji get_emoji emoji
  = Returned (ReplyText (py "Unable to extract emoji id from `" ++ emoji ++ py "`.")).
Proof.
  intros Hhead. unfold inspect_emoji, emoji_pattern.
  destruct (strip emoji) as [|c s]; [done|].
  destruct (N.eqb_spec c 60) as [->|_]; [done|done].
Qed.

End emoji_properties.

Example emoji_pattern_last_colon :
  @emoji_pattern (ascii_digits None) (py "<:a:1>:22>zz") = Some (py "22").
Proof. reflexivity. Qed.

Example emoji_pattern_needs_two_colons :
  @emoji_pattern (ascii_digits None) (py "<a:5>") = None.
Proof. reflexivity. Qed.

Example emoji_pattern_stops_at_newline :
  @emoji_pattern (ascii_digits None) (py "<:x" ++ [LF] ++ py ":5>") = None.
Proof. reflexivity. Qed.

Lemma inspect_emoji_reads_mention_witness :
  (strip (py " <a:party:123> ")
   = py "<" ++ py "a" ++ py ":" ++ py "party" ++ py ":" ++ py "123" ++ py ">"
   ∧ is_ascii_digits (py "123"))
  ∧ @inspect_emoji (ascii_digits (Some 4300)) party_client (py " <a:party:123> ")
    = Returned (ReplyEmbed (py "party")
                  [ (py "created at", py "2021"); (py "url", py "https://cdn/123.gif") ]).
Proof.
  split; [split; [reflexivity | compute_done]|].
  apply (@inspect_emoji_reads_mention (ascii_digits (Some 4300)) party_client
           (py " <a:party:123> ") (py "party") (py "123") true).
  - reflexivity.
  - compute_done.
  - compute_done.
  - discriminate.
  - intros limit [= <-]. vm_compute. lia.
Defined.

Lemma inspect_emoji_refuses_other_text_witness :
  head (strip (py " :smile: ")) ≠ Some 60%N
  ∧ @inspect_emoji (ascii_digits None) (λ _, None) (py " :smile: ")
    = Returned (ReplyText (py "Unable to extract emoji id from ` :smile: `.")).
Proof.
  split; [discriminate|].
  apply (@inspect_emoji_refuses_other_text (ascii_digits None)). discriminate.
Defined.
